(** * go-acoustid: posting buffers, merge readers and the fingerprint codec

    A shallow embedding of two packages of the repository:

    - [index]: [Item], [ItemBuffer] (Add / Delete / Reader), the
      [ItemReader] interface with its implementations, [ReadAllItems]
      and [MergeItemReaders];
    - [chromaprint]: [unpackFingerprint] and the entry points built on it.

    Go calls either return or panic; a panic is modelled by [Panics].
    Loops whose number of iterations is not bounded by the data at hand
    ([ReadAllItems]) take a fuel argument and answer [None] when it runs
    out. *)

From Stdlib Require Import Strings.String Strings.Ascii Strings.Byte.
From Stdlib Require Import ZArith List Bool Lia Permutation Sorted.
From Equations Require Import Equations.
Import ListNotations.
Open Scope Z_scope.

(** ** Outcome of a call *)

Inductive outcome (A : Type) : Type :=
| Returns (a : A)
| Panics.
Arguments Returns {A} a.
Arguments Panics {A}.

Definition bind {A B : Type} (c : outcome A) (k : A -> outcome B) : outcome B :=
  match c with
  | Returns a => k a
  | Panics => Panics
  end.

Notation "x <- c ;; k" := (bind c (fun x => k))
  (at level 61, c at next level, right associativity).
Notation "' p <- c ;; k" := (bind c (fun x => let p := x in k))
  (at level 61, p pattern, c at next level, right associativity).

(** ** Fixed-width integers *)

Definition MaxUint32 : Z := 4294967295.

(** Go's [int] on a 64-bit platform: two's complement wrap-around. *)
Definition wrap_int (z : Z) : Z := (z + 2 ^ 63) mod 2 ^ 64 - 2 ^ 63.

(** [int8] wrap-around. *)
Definition wrap_int8 (z : Z) : Z := (z + 128) mod 256 - 128.

(** * Package index *)

Module index.

(** [Item] is one (term, docID) pair of the inverted index; both fields
    are [uint32]. *)
Record Item : Type := mkItem { Term : Z; DocID : Z }.

(** Errors seen by the readers: [io.EOF] and any other error value. *)
Inductive error : Type :=
| EOF
| ReadError (code : nat).

Record ItemBuffer : Type := mkItemBuffer {
  numDocs : Z;            (* int *)
  minDocID : Z;           (* uint32 *)
  maxDocID : Z;           (* uint32 *)
  items : list Item
}.

(** The zero value of the struct. *)
Definition emptyBuffer : ItemBuffer :=
  {| numDocs := 0; minDocID := 0; maxDocID := 0; items := [] |}.

Definition NumDocs (ib : ItemBuffer) : Z := numDocs ib.
Definition NumItems (ib : ItemBuffer) : nat := length (items ib).
Definition MinDocID (ib : ItemBuffer) : Z := minDocID ib.
Definition MaxDocID (ib : ItemBuffer) : Z := maxDocID ib.
Definition Empty (ib : ItemBuffer) : bool := (length (items ib) =? 0)%nat.

Definition Reset (ib : ItemBuffer) : ItemBuffer :=
  {| numDocs := 0; minDocID := 0; maxDocID := 0; items := [] |}.

Definition Add (ib : ItemBuffer) (docID : Z) (terms : list Z) : ItemBuffer :=
  let n := wrap_int (numDocs ib + 1) in
  let mn := if (n =? 1) || (docID <? minDocID ib) then docID else minDocID ib in
  let mx := if (n =? 1) || (maxDocID ib <? docID) then docID else maxDocID ib in
  {| numDocs := n; minDocID := mn; maxDocID := mx;
     items := items ib ++ map (fun term => {| DocID := docID; Term := term |}) terms |}.

(** The rescan of [Delete]: one pass over the remaining items, lowering
    the minimum and raising the maximum. *)
Definition rescan (its : list Item) (mn mx : Z) : Z * Z :=
  fold_left
    (fun (acc : Z * Z) (item : Item) =>
       let '(mn, mx) := acc in
       (if DocID item <? mn then DocID item else mn,
        if mx <? DocID item then DocID item else mx))
    its (mn, mx).

Definition Delete (ib : ItemBuffer) (docID : Z) : bool * ItemBuffer :=
  if (docID <? minDocID ib) || (maxDocID ib <? docID) then (false, ib)
  else
    let kept := filter (fun item => negb (DocID item =? docID)) (items ib) in
    if (length kept =? length (items ib))%nat then (false, ib)
    else
      let n := wrap_int (numDocs ib - 1) in
      if (docID =? minDocID ib) || (docID =? maxDocID ib) then
        if 0 <? n then
          let '(mn, mx) := rescan kept MaxUint32 0 in
          (true, {| numDocs := n; minDocID := mn; maxDocID := mx; items := kept |})
        else
          (true, {| numDocs := n; minDocID := 0; maxDocID := 0; items := kept |})
      else
        (true, {| numDocs := n; minDocID := minDocID ib; maxDocID := maxDocID ib;
                  items := kept |}).

(** A history of mutations of one buffer. *)
Inductive op : Type :=
| OpAdd (docID : Z) (terms : list Z)
| OpDelete (docID : Z).

Definition apply_op (ib : ItemBuffer) (o : op) : ItemBuffer :=
  match o with
  | OpAdd docID terms => Add ib docID terms
  | OpDelete docID => snd (Delete ib docID)
  end.

Definition run (ops : list op) : ItemBuffer := fold_left apply_op ops emptyBuffer.

(** The comparison closure handed to [sort.Slice] by [Reader]. *)
Definition itemLess (a b : Item) : bool :=
  (Term a <? Term b) || ((Term a =? Term b) && (DocID a <? DocID b)).

(** Non-decreasing in (term, docID): no later element is less than an
    earlier one. *)
Definition lexLe (a b : Item) : Prop :=
  Term a < Term b \/ (Term a = Term b /\ DocID a <= DocID b).

Definition lexSorted (l : list Item) : Prop := StronglySorted lexLe l.

Definition termLe (a b : Item) : Prop := Term a <= Term b.

Definition termSorted (l : list Item) : Prop := StronglySorted termLe l.

(** ** Readers *)

(** Values of the interface type [ItemReader]: the nil interface, the two
    implementations of the package, and any other implementation,
    represented by the results its successive [ReadBlock] calls give
    (once the script is over it reports [io.EOF]).

    [itemBufferReader] points to its buffer; the buffer is carried along
    with the position.  Of [multiItemReader.buf] only the length matters:
    every slot is written before it is handed out, and a block handed out
    is consumed by the caller before the node is asked again. *)
Inductive ItemReader : Type :=
| nilReader
| itemBufferReader (ib : ItemBuffer) (pos : nat)
| multiItemReader (reader1 reader2 : ItemReader) (block1 block2 : list Item) (buf : nat)
| scriptedReader (script : list (list Item * option error)).

Definition isNil (r : ItemReader) : bool :=
  match r with nilReader => true | _ => false end.

Definition block_result : Type := (list Item * option error * ItemReader)%type.

(** The comparison of the merge loop, as written:
    [v1.Term <= v2.Term || (v1.Term == v2.Term && v1.DocID <= v2.DocID)]. *)
Definition takeLeft (v1 v2 : Item) : bool :=
  (Term v1 <=? Term v2) || ((Term v1 =? Term v2) && (DocID v1 <=? DocID v2)).

(** The loop [for i := range items] of [multiItemReader.ReadBlock], entered
    with both pending blocks non-empty ([v1 :: t1] and [v2 :: t2]); [n] is
    the number of slots of [buf] still free.  Returns the slots filled and
    what is left of the two blocks. *)
Fixpoint mergeLoop (n : nat) (v1 : Item) (t1 : list Item) (v2 : Item) (t2 : list Item)
  : list Item * list Item * list Item :=
  match n with
  | O => ([], v1 :: t1, v2 :: t2)
  | S n' =>
      if takeLeft v1 v2 then
        match t1 with
        | [] => ([v1], [], v2 :: t2)
        | v1' :: t1' =>
            let '(out, b1, b2) := mergeLoop n' v1' t1' v2 t2 in (v1 :: out, b1, b2)
        end
      else
        match t2 with
        | [] => ([v2], v1 :: t1, [])
        | v2' :: t2' =>
            let '(out, b1, b2) := mergeLoop n' v1 t1 v2' t2' in (v2 :: out, b1, b2)
        end
  end.

(** One of the two refill steps at the head of [multiItemReader.ReadBlock]:
    [call] is the result of the side's [ReadBlock], used only when the
    pending block is empty and the reader is not nil.  The third component
    is the error to return at once, if any. *)
Definition refill (block : list Item) (reader : ItemReader) (call : outcome block_result)
  : outcome (list Item * ItemReader * option error) :=
  if (length block =? 0)%nat && negb (isNil reader) then
    '(blk, err, rd) <- call ;;
    match err with
    | None => Returns (blk, rd, None)
    | Some EOF => Returns (blk, nilReader, None)
    | Some e => Returns (blk, rd, Some e)
    end
  else Returns (block, reader, None).

Fixpoint ReadBlock (r : ItemReader) : outcome block_result :=
  match r with
  | nilReader => Panics
  | itemBufferReader ib pos =>
      if (length (items ib) <=? pos)%nat then Returns ([], Some EOF, r)
      else
        let blk := skipn pos (items ib) in
        Returns (blk, None, itemBufferReader ib (pos + length blk))
  | scriptedReader script =>
      match script with
      | [] => Returns ([], Some EOF, r)
      | (blk, err) :: rest => Returns (blk, err, scriptedReader rest)
      end
  | multiItemReader reader1 reader2 block1 block2 buf =>
      '(block1, reader1, err1) <- refill block1 reader1 (ReadBlock reader1) ;;
      match err1 with
      | Some e => Returns ([], Some e, multiItemReader reader1 reader2 block1 block2 buf)
      | None =>
          '(block2, reader2, err2) <- refill block2 reader2 (ReadBlock reader2) ;;
          match err2 with
          | Some e => Returns ([], Some e, multiItemReader reader1 reader2 block1 block2 buf)
          | None =>
              match block1, block2 with
              | v1 :: t1, v2 :: t2 =>
                  let '(out, b1, b2) := mergeLoop buf v1 t1 v2 t2 in
                  Returns (out, None, multiItemReader reader1 reader2 b1 b2 buf)
              | _ :: _, [] =>
                  Returns (block1, None, multiItemReader reader1 reader2 [] block2 buf)
              | [], _ :: _ =>
                  Returns (block2, None, multiItemReader reader1 reader2 block1 [] buf)
              | [], [] =>
                  Returns ([], Some EOF, multiItemReader reader1 reader2 block1 block2 buf)
              end
          end
      end
  end.

(** [ReadAllItems]: the loop runs until a block comes with an error. *)
Fixpoint ReadAllItems_loop (fuel : nat) (reader : ItemReader) (acc : list Item)
  : option (outcome (list Item * option error)) :=
  match fuel with
  | O => None
  | S fuel' =>
      match ReadBlock reader with
      | Panics => Some Panics
      | Returns (block, err, reader') =>
          let acc := acc ++ block in
          match err with
          | None => ReadAllItems_loop fuel' reader' acc
          | Some EOF => Some (Returns (acc, None))
          | Some e => Some (Returns (acc, Some e))
          end
      end
  end.

Definition ReadAllItems (fuel : nat) (reader : ItemReader)
  : option (outcome (list Item * option error)) :=
  ReadAllItems_loop fuel reader [].

(** [multiItemReader.init]: [buf] gets 1024 slots. *)
Definition init (r : ItemReader) : ItemReader :=
  match r with
  | multiItemReader reader1 reader2 block1 block2 _ =>
      multiItemReader reader1 reader2 block1 block2 1024
  | _ => r
  end.

(** [case 2] of [MergeItemReaders]. *)
Definition mergeTwo (r0 r1 : ItemReader) : ItemReader :=
  if isNil r0 then r1
  else if isNil r1 then r0
  else init (multiItemReader r0 r1 [] [] 0).

Equations? MergeItemReaders (readers : list ItemReader) : ItemReader
  by wf (length readers) lt :=
  MergeItemReaders [] := nilReader;
  MergeItemReaders [r] := r;
  MergeItemReaders [r0; r1] := mergeTwo r0 r1;
  MergeItemReaders readers :=
    let mid := Nat.div (length readers) 2 in
    let reader1 := MergeItemReaders (firstn mid readers) in
    let reader2 := MergeItemReaders (skipn mid readers) in
    MergeItemReaders [reader1; reader2].
Proof.
  all: try (simpl; lia).
  all: subst mid readers;
    change (fst (Nat.divmod (length l) 1 1 0)) with (Nat.div (3 + length l) 2).
  - rewrite length_firstn. simpl length.
    pose proof (Nat.div_lt (3 + length l) 2). lia.
  - rewrite length_skipn. simpl length.
    assert (1 <= Nat.div (3 + length l) 2)%nat
      by (apply Nat.div_le_lower_bound; lia).
    lia.
Qed.

(** ** Reader *)

Section Reader.

(** [sort.Slice] of go4.org/sort, a library outside the repository:
    taken as a parameter. *)
Variable sort_Slice : (Item -> Item -> bool) -> list Item -> list Item.

(** [Reader] sorts the items of the buffer in place and returns a reader
    pointing to the buffer. *)
Definition Reader (ib : ItemBuffer) : ItemBuffer * ItemReader :=
  let ib' := {| numDocs := numDocs ib; minDocID := minDocID ib;
                maxDocID := maxDocID ib;
                items := sort_Slice itemLess (items ib) |} in
  (ib', itemBufferReader ib' 0).

End Reader.

(** What [sort.Slice] promises for the closure of [Reader]: the slice is
    rearranged, and afterwards no element is less than its predecessor. *)
Definition sorts (sort_Slice : (Item -> Item -> bool) -> list Item -> list Item) : Prop :=
  forall l,
    Permutation (sort_Slice itemLess l) l /\
    Sorted (fun a b => itemLess b a = false) (sort_Slice itemLess l).

(** An insertion sort, one function that keeps this promise. *)
Fixpoint insertSorted (less : Item -> Item -> bool) (x : Item) (l : list Item) : list Item :=
  match l with
  | [] => [x]
  | y :: l' => if less y x then y :: insertSorted less x l' else x :: l
  end.

Definition insertionSort (less : Item -> Item -> bool) (l : list Item) : list Item :=
  fold_right (insertSorted less) [] l.

(** ** The stream behind a reader *)

(** Merge of two sequences with the comparison of the merge loop. *)
Fixpoint tmerge (l1 : list Item) : list Item -> list Item :=
  fix tmerge_right (l2 : list Item) : list Item :=
    match l1, l2 with
    | [], _ => l2
    | _, [] => l1
    | v1 :: t1, v2 :: t2 =>
        if takeLeft v1 v2 then v1 :: tmerge t1 l2 else v2 :: tmerge_right t2
    end.

(** The items a tree of buffer readers and merge nodes has yet to deliver. *)
Fixpoint pending (r : ItemReader) : list Item :=
  match r with
  | nilReader => []
  | itemBufferReader ib pos => skipn pos (items ib)
  | multiItemReader reader1 reader2 block1 block2 _ =>
      tmerge (block1 ++ pending reader1) (block2 ++ pending reader2)
  | scriptedReader _ => []
  end.

(** Trees made of buffer readers and initialised merge nodes. *)
Fixpoint steady (r : ItemReader) : Prop :=
  match r with
  | nilReader => True
  | itemBufferReader _ _ => True
  | multiItemReader reader1 reader2 _ _ buf =>
      steady reader1 /\ steady reader2 /\ (0 < buf)%nat
  | scriptedReader _ => False
  end.

(** What a well-behaved [ReadBlock] returns: a non-empty block taken from
    the front of the stream, or end-of-stream once the stream is empty. *)
Definition delivers (r : ItemReader) (res : block_result) : Prop :=
  let '(blk, err, r') := res in
  steady r' /\
  ((err = None /\ blk <> [] /\ isNil r' = false /\ pending r = blk ++ pending r') \/
   (err = Some EOF /\ blk = [] /\ pending r = [])).

Definition live (r : ItemReader) : Prop := steady r /\ isNil r = false.

(** The distinct docIDs among some items. *)
Definition docIDs (its : list Item) : list Z := nodup Z.eq_dec (map DocID its).

(** ** Well-formed histories *)

Definition is_uint32 (z : Z) : Prop := 0 <= z <= MaxUint32.

(** The arguments of an operation fit their [uint32] types. *)
Definition wf_op (o : op) : Prop :=
  match o with
  | OpAdd docID terms => is_uint32 docID /\ Forall is_uint32 terms
  | OpDelete docID => is_uint32 docID
  end.

(** The filter of [Delete]. *)
Definition otherDoc (docID : Z) (item : Item) : bool := negb (DocID item =? docID).

(** ** Scripts, subsequences and trees *)

(** The items a scripted reader hands out before [ReadAllItems] stops:
    the blocks up to and including the first one that comes with an
    error. *)
Fixpoint scriptItems (script : list (list Item * option error)) : list Item :=
  match script with
  | [] => []
  | (blk, None) :: rest => blk ++ scriptItems rest
  | (blk, Some _) :: _ => blk
  end.

(** The first error of a script, with [io.EOF] (also at the end of the
    script) read as no error. *)
Fixpoint scriptError (script : list (list Item * option error)) : option error :=
  match script with
  | [] => None
  | (_, None) :: rest => scriptError rest
  | (_, Some EOF) :: _ => None
  | (_, Some e) :: _ => Some e
  end.

(** [s] is [l] with some elements left out. *)
Inductive Subseq : list Item -> list Item -> Prop :=
| Subseq_nil : Subseq [] []
| Subseq_skip x s l : Subseq s l -> Subseq s (x :: l)
| Subseq_take x s l : Subseq s l -> Subseq (x :: s) (x :: l).

(** [l] is [l1] and [l2] interleaved: every element of [l] is the next
    one of [l1] or the next one of [l2], so both keep their order. *)
Inductive Interleave : list Item -> list Item -> list Item -> Prop :=
| Interleave_nil : Interleave [] [] []
| Interleave_left x l1 l2 l : Interleave l1 l2 l -> Interleave (x :: l1) l2 (x :: l)
| Interleave_right x l1 l2 l : Interleave l1 l2 l -> Interleave l1 (x :: l2) (x :: l).

(** Number of merge nodes on the longest path to a source. *)
Fixpoint depth (r : ItemReader) : nat :=
  match r with
  | multiItemReader reader1 reader2 _ _ _ => S (Nat.max (depth reader1) (depth reader2))
  | _ => 0%nat
  end.

(** Where the two sequences share a term, the docIDs of the first do not
    exceed those of the second. *)
Definition leftBefore (s1 s2 : list Item) : Prop :=
  forall a b, In a s1 -> In b s2 -> Term a = Term b -> DocID a <= DocID b.

(** A reader argument that may be nil: [None] is the nil reader, [Some ib]
    a fresh reader over the buffer [ib]. *)
Definition readerOf (source : option ItemBuffer) : ItemReader :=
  match source with
  | Some ib => itemBufferReader ib 0
  | None => nilReader
  end.

Definition itemsOf (source : option ItemBuffer) : list Item :=
  match source with
  | Some ib => items ib
  | None => []
  end.

End index.

(** * Package chromaprint *)

Module chromaprint.

(** Error values: the package's own [ErrInvalidFingerprint], the
    [CorruptInputError] of encoding/base64, and an error wrapped with a
    message by [errors.Wrap]. *)
Inductive error : Type :=
| ErrInvalidFingerprint
| CorruptInputError (offset : Z)
| withMessage (cause : error) (msg : string).

Definition Wrap (err : error) (message : string) : error := withMessage err message.

(** [errors.Cause]: the innermost error. *)
Fixpoint Cause (err : error) : error :=
  match err with
  | withMessage cause _ => Cause cause
  | _ => err
  end.

Record Fingerprint : Type := mkFingerprint {
  Version : Z;            (* int *)
  Hashes : list Z         (* []uint32 *)
}.

Definition byteZ (b : byte) : Z := Z.of_N (Byte.to_N b).

(** [data[offset:]]: panics when the offset is beyond the length. *)
Definition slice_from (data : list byte) (offset : nat) : outcome (list byte) :=
  if (offset <=? length data)%nat then Returns (skipn offset data) else Panics.

(** [binary.BigEndian.Uint32]. *)
Definition BigEndian_Uint32 (b : list byte) : outcome Z :=
  match b with
  | b0 :: b1 :: b2 :: b3 :: _ =>
      Returns (Z.lor (Z.lor (Z.lor (byteZ b3) (Z.shiftl (byteZ b2) 8))
                            (Z.shiftl (byteZ b1) 16))
                     (Z.shiftl (byteZ b0) 24))
  | _ => Panics
  end.

(** The first loop of [unpackFingerprint]: counts the zero codes and the
    codes 7; when the [totalValues]-th zero is met at index [bi] the loop
    is left, and the third component is [bi + 1], the new length of
    [bits]. *)
Fixpoint scanBits (totalValues : Z) (bits : list Z) (bi : nat)
    (numValues numExceptionalBits : Z) : Z * Z * option nat :=
  match bits with
  | [] => (numValues, numExceptionalBits, None)
  | bit :: rest =>
      if bit =? 0 then
        let numValues := numValues + 1 in
        if numValues =? totalValues then (numValues, numExceptionalBits, Some (S bi))
        else scanBits totalValues rest (S bi) numValues numExceptionalBits
      else if bit =? 7 then
        scanBits totalValues rest (S bi) numValues (numExceptionalBits + 1)
      else scanBits totalValues rest (S bi) numValues numExceptionalBits
  end.

(** The second loop: [bits[bi] += exceptionalBits[ei]] for every code 7,
    in [int8] arithmetic. *)
Fixpoint addExceptional (bits exceptionalBits : list Z) (ei : nat) : outcome (list Z) :=
  match bits with
  | [] => Returns []
  | bit :: rest =>
      if bit =? 7 then
        match nth_error exceptionalBits ei with
        | None => Panics
        | Some x =>
            rest' <- addExceptional rest exceptionalBits (S ei) ;;
            Returns (wrap_int8 (bit + x) :: rest')
        end
      else
        rest' <- addExceptional rest exceptionalBits ei ;;
        Returns (bit :: rest')
  end.

(** [hashes[hi] = v] *)
Fixpoint store (hashes : list Z) (hi : nat) (v : Z) : list Z :=
  match hashes, hi with
  | [], _ => []
  | _ :: t, O => v :: t
  | h :: t, S hi' => h :: store t hi' v
  end.

(** [uint(x)] for an [int8] value [x]. *)
Definition uint_of_int8 (x : Z) : Z := if x <? 0 then x + 2 ^ 64 else x.

(** [1 << count] at type [uint32]. *)
Definition shl1_uint32 (count : Z) : Z := if count <? 32 then Z.shiftl 1 count else 0.

(** The third loop: rebuilds the hashes. *)
Fixpoint buildHashes (bits : list Z) (hashes : list Z) (hi : nat) (lastBit : Z)
  : outcome (list Z) :=
  match bits with
  | [] => Returns hashes
  | bit :: rest =>
      if bit =? 0 then
        hashes' <- (if (0 <? hi)%nat then
                      match nth_error hashes hi, nth_error hashes (hi - 1) with
                      | Some h, Some prev => Returns (store hashes hi (Z.lxor h prev))
                      | _, _ => Panics
                      end
                    else Returns hashes) ;;
        buildHashes rest hashes' (S hi) 0
      else
        let lastBit := wrap_int8 (lastBit + bit) in
        match nth_error hashes hi with
        | Some h =>
            buildHashes rest
              (store hashes hi
                 (Z.lor h (shl1_uint32 (uint_of_int8 (wrap_int8 (lastBit - 1))))))
              hi lastBit
        | None => Panics
        end
  end.

Section Codec.

(** The two unpacking helpers are defined in another file of the
    package; they are parameters.  Their results are [[]int8] (the
    codes are added to [lastBit], an [int8]). *)
Variable unpackInt3Array : list byte -> list Z.
Variable unpackInt5Array : list byte -> list Z.

(** [base64.RawURLEncoding.DecodeString] of the Go standard library. *)
Variable RawURLEncoding_DecodeString : string -> list byte * option error.

(** [unpackFingerprint(data, fp)]: [fp] is [None] for a nil pointer; the
    result holds the error returned ([None] for nil) and the structure
    behind [fp] after the call. *)
Definition unpackFingerprint (data : list byte) (fp : option Fingerprint)
  : outcome (option error * option Fingerprint) :=
  if (length data <? 4)%nat then
    Returns (Some (Wrap ErrInvalidFingerprint "encoded fingerprint is less than 4 bytes"), fp)
  else
    header <- BigEndian_Uint32 data ;;
    let offset := 4%nat in
    let version := Z.land (Z.shiftr header 24) 255 in
    let totalValues := Z.land header 16777215 in
    if totalValues =? 0 then
      Returns (Some (Wrap ErrInvalidFingerprint "fingerprint contains no items"), fp)
    else
      rest <- slice_from data offset ;;
      let bits := unpackInt3Array rest in
      let '(numValues, numExceptionalBits, cut) := scanBits totalValues bits 0 0 0 in
      let bits := match cut with Some n => firstn n bits | None => bits end in
      let offset :=
        match cut with
        | Some _ => (offset + (length bits * 3 + 8) / 8)%nat
        | None => offset
        end in
      if negb (numValues =? totalValues) then
        Returns (Some (Wrap ErrInvalidFingerprint "not enough data to decode normal bits"), fp)
      else
        resolved <-
          (if 0 <? numExceptionalBits then
             rest <- slice_from data offset ;;
             let exceptionalBits := unpackInt5Array rest in
             if negb (Z.of_nat (length exceptionalBits) =? numExceptionalBits) then
               Returns (inl (Wrap ErrInvalidFingerprint
                               "not enough data to decode exceptional bits"))
             else
               bits' <- addExceptional bits exceptionalBits 0 ;;
               Returns (inr bits')
           else Returns (inr bits)) ;;
        match resolved with
        | inl err => Returns (Some err, fp)
        | inr bits =>
            match fp with
            | None => Returns (None, None)
            | Some _ =>
                hashes <- buildHashes bits (repeat 0 (Z.to_nat totalValues)) 0 0 ;;
                Returns (None, Some {| Version := version; Hashes := hashes |})
            end
        end.

Definition DecodeFingerprintString (str : string) : list byte * option error :=
  if (String.length str =? 0)%nat then ([], Some ErrInvalidFingerprint)
  else RawURLEncoding_DecodeString str.

Definition ParseFingerprint (data : list byte)
  : outcome (option Fingerprint * option error) :=
  '(err, fp) <- unpackFingerprint data (Some {| Version := 0; Hashes := [] |}) ;;
  match err with
  | Some e => Returns (None, Some e)
  | None => Returns (fp, None)
  end.

Definition ParseFingerprintString (str : string)
  : outcome (option Fingerprint * option error) :=
  let '(data, err) := DecodeFingerprintString str in
  match err with
  | Some e => Returns (None, Some (Wrap e "decoding failed"))
  | None => ParseFingerprint data
  end.

Definition ValidateFingerprint (data : list byte) : outcome bool :=
  '(err, _) <- unpackFingerprint data None ;;
  Returns (match err with None => true | Some _ => false end).

Definition ValidateFingerprintString (str : string) : outcome bool :=
  let '(data, err) := DecodeFingerprintString str in
  match err with
  | Some _ => Returns false
  | None => ValidateFingerprint data
  end.

End Codec.

(** What the 5-bit helper promises: codes between 0 and 31. *)
Definition fiveBitCodes (unpackInt5Array : list byte -> list Z) : Prop :=
  forall data, Forall (fun x => 0 <= x <= 31) (unpackInt5Array data).

(** ** The unpacking helpers *)

(** The eight bits of a byte, most significant first. *)
Definition byte_bits (b : byte) : list bool :=
  map (Z.testbit (byteZ b)) [7; 6; 5; 4; 3; 2; 1; 0].

Definition bits_value (bs : list bool) : Z :=
  fold_left (fun acc (b : bool) => 2 * acc + (if b then 1 else 0)) bs 0.

Fixpoint codes3 (bs : list bool) : list Z :=
  match bs with
  | a :: b :: c :: rest => bits_value [a; b; c] :: codes3 rest
  | _ => []
  end.

Fixpoint codes5 (bs : list bool) : list Z :=
  match bs with
  | a :: b :: c :: d :: e :: rest => bits_value [a; b; c; d; e] :: codes5 rest
  | _ => []
  end.

(** Modelled from the spec: [unpackInt3Array], a helper of the package
    whose source is missing.  It reads the bytes as a bit stream and
    extracts successive 3-bit unsigned integers, most significant bit
    first, packed contiguously across byte boundaries, until the stream
    is exhausted. *)
Definition unpackInt3Array (data : list byte) : list Z :=
  codes3 (flat_map byte_bits data).

(** Modelled from the spec: [unpackInt5Array], a helper of the package
    whose source is missing.  As [unpackInt3Array], with 5-bit integers. *)
Definition unpackInt5Array (data : list byte) : list Z :=
  codes5 (flat_map byte_bits data).

(** ** base64 *)

(** The decoding table of the URL-safe alphabet. *)
Definition decodeMap (c : ascii) : option Z :=
  let n := Z.of_N (N_of_ascii c) in
  if (65 <=? n) && (n <=? 90) then Some (n - 65)
  else if (97 <=? n) && (n <=? 122) then Some (n - 71)
  else if (48 <=? n) && (n <=? 57) then Some (n + 4)
  else if n =? 45 then Some 62
  else if n =? 95 then Some 63
  else None.

Definition byte_of_Z (z : Z) : byte :=
  match Byte.of_N (Z.to_N (z mod 256)) with
  | Some b => b
  | None => x00
  end.

(** The bytes of one quantum of 2, 3 or 4 six-bit values. *)
Definition quantum_bytes (dbuf : list Z) : list byte :=
  let val :=
    Z.lor (Z.lor (Z.lor (Z.shiftl (nth 0 dbuf 0) 18) (Z.shiftl (nth 1 dbuf 0) 12))
                 (Z.shiftl (nth 2 dbuf 0) 6))
          (nth 3 dbuf 0) in
  firstn (length dbuf - 1)
    [byte_of_Z (Z.shiftr val 16); byte_of_Z (Z.shiftr val 8); byte_of_Z val].

(** [base64.RawURLEncoding.DecodeString] of the Go standard library (no
    padding, not strict): line breaks are skipped, a character outside the
    alphabet or a final quantum of one character is a [CorruptInputError]
    at its offset; the bytes decoded so far come with the error. *)
Fixpoint decodeChars (src : list ascii) (si : Z) (dbuf : list Z) (dst : list byte)
  : list byte * option error :=
  match src with
  | [] =>
      match dbuf with
      | [] => (dst, None)
      | [_] => (dst, Some (CorruptInputError (si - 1)))
      | _ => (dst ++ quantum_bytes dbuf, None)
      end
  | c :: rest =>
      match decodeMap c with
      | Some v =>
          let dbuf := dbuf ++ [v] in
          if (length dbuf =? 4)%nat
          then decodeChars rest (si + 1) [] (dst ++ quantum_bytes dbuf)
          else decodeChars rest (si + 1) dbuf dst
      | None =>
          if (N_of_ascii c =? 10)%N || (N_of_ascii c =? 13)%N
          then decodeChars rest (si + 1) dbuf dst
          else (dst, Some (CorruptInputError si))
      end
  end.

Definition RawURLEncoding_DecodeString (s : string) : list byte * option error :=
  decodeChars (list_ascii_of_string s) 0 [] [].

(** ** Counting codes *)

Definition zeros (bits : list Z) : nat := length (filter (fun bit => bit =? 0) bits).

Definition sevens (bits : list Z) : nat := length (filter (fun bit => bit =? 7) bits).

(** Every index used by [buildHashes] on [bits], started at [hi], is below
    [len]. *)
Fixpoint inBounds (bits : list Z) (hi len : nat) : Prop :=
  match bits with
  | [] => True
  | bit :: rest =>
      if bit =? 0 then (hi = 0%nat \/ (hi < len)%nat) /\ inBounds rest (S hi) len
      else (hi < len)%nat /\ inBounds rest hi len
  end.

(** ** What the third loop computes *)




(** The values of [uint32]. *)
Definition is_u32 (h : Z) : Prop := 0 <= h < 2 ^ 32.

End chromaprint.

(** * Package handlers *)

Module handlers.

(** [ResponseFormat] is an [int]; the constants of the block are
    [UnknownFormat = 0] and then [1 << iota] for the second, third and
    fourth line. *)
Definition UnknownFormat : Z := 0.
Definition JsonFormat : Z := Z.shiftl 1 1.
Definition JsonpFormat : Z := Z.shiftl 1 2.
Definition XmlFormat : Z := Z.shiftl 1 3.

(** An error made by [fmt.Errorf]: its message. *)
Inductive error : Type :=
| errorString (msg : string).

(** [url.Values]: the values of each key, none for a key that is absent. *)
Definition Values : Type := string -> list string.

(** [url.Values.Get]: the first value of the key, or the empty string. *)
Definition Get (values : Values) (key : string) : string :=
  match values key with
  | [] => EmptyString
  | v :: _ => v
  end.

Definition parseResponseFormat (values : Values) (allowed : Z) : Z * option error :=
  let format := Get values "format" in
  if ((format =? "")%string || (format =? "json")%string)
     && negb (Z.land JsonFormat allowed =? 0) then (JsonFormat, None)
  else if (format =? "jsonp")%string && negb (Z.land JsonpFormat allowed =? 0)
  then (JsonpFormat, None)
  else if (format =? "xml")%string && negb (Z.land XmlFormat allowed =? 0)
  then (XmlFormat, None)
  else (UnknownFormat, Some (errorString ("unknown format " ++ format))).

Record ErrorDetails : Type := mkErrorDetails { Message : string; Code : Z }.

Record ErrorResponse : Type := mkErrorResponse { Status : string; Error : ErrorDetails }.

Definition NewErrorResponse (message : string) (code : Z) : ErrorResponse :=
  {| Status := "error"; Error := {| Message := message; Code := code |} |}.

(** What is done to an [http.ResponseWriter], call by call. *)
Inductive call : Type :=
| HeaderSet (key value : string)
| WriteHeader (status : Z)
| Write (data : list byte).

Section Marshal.

(** The type behind [interface{}], [json.Marshal], [xml.Marshal] and
    [xml.Header] of the Go standard library. *)
Variable response : Type.
Variable json_Marshal : response -> list byte * option error.
Variable xml_Marshal : response -> list byte * option error.
Variable xml_Header : string.

Definition MarshalResponse (r : response) (format : Z) : list byte * option error :=
  if format =? JsonFormat then json_Marshal r
  else if format =? XmlFormat then xml_Marshal r
  else ([], Some (errorString "unsupported format")).

(** [WriteResponse]: the calls it makes on [w], in order. *)
Definition WriteResponse (status : Z) (r : response) (format : Z) : list call :=
  let '(data, _) := MarshalResponse r format in
  (if format =? JsonFormat
   then [HeaderSet "Content-Type" "application/json; charset=utf-8"]
   else if format =? XmlFormat
   then [HeaderSet "Content-Type" "application/xml; charset=utf-8"]
   else [])
  ++ [WriteHeader status]
  ++ (if format =? XmlFormat then [Write (list_byte_of_string xml_Header)] else [])
  ++ [Write data].

End Marshal.

(** The format a request asks for: the value of [format], with the empty
    string standing for JSON. *)
Definition requested (values : Values) : option Z :=
  let format := Get values "format" in
  if (format =? "")%string || (format =? "json")%string then Some JsonFormat
  else if (format =? "jsonp")%string then Some JsonpFormat
  else if (format =? "xml")%string then Some XmlFormat
  else None.

Definition isWriteHeader (c : call) : bool :=
  match c with WriteHeader _ => true | _ => false end.

Definition isHeaderSet (c : call) : bool :=
  match c with HeaderSet _ _ => true | _ => false end.

End handlers.

(** * Facts about package index *)

Section IndexFacts.
Import index.

Lemma wrap_int_small z : - 2 ^ 63 <= z < 2 ^ 63 -> wrap_int z = z.
Proof.
  intros H. unfold wrap_int. rewrite Z.mod_small; lia.
Qed.

(** ** Buffers *)

Lemma docIDs_Add its docID terms :
  (length (docIDs (its ++ map (fun term => {| DocID := docID; Term := term |}) terms))
   <= S (length (docIDs its)))%nat.
Proof.
  change (S (length (docIDs its))) with (length (docID :: docIDs its)).
  apply NoDup_incl_length.
  - apply NoDup_nodup.
  - intros d Hd. unfold docIDs in *. rewrite nodup_In in Hd.
    rewrite map_app, in_app_iff in Hd. destruct Hd as [Hd | Hd].
    + right. now apply nodup_In.
    + left. rewrite map_map in Hd. simpl in Hd.
      apply in_map_iff in Hd. destruct Hd as [t [Ht _]]. exact Ht.
Qed.

Lemma docIDs_Delete its docID :
  length (filter (fun item => negb (DocID item =? docID)) its) <> length its ->
  (S (length (docIDs (filter (fun item => negb (DocID item =? docID)%Z) its)))
   <= length (docIDs its))%nat.
Proof.
  intros Hlen.
  set (kept := filter (fun item => negb (DocID item =? docID)) its) in *.
  change (S (length (docIDs kept))) with (length (docID :: docIDs kept)).
  apply NoDup_incl_length.
  - constructor.
    + unfold docIDs. rewrite nodup_In, in_map_iff.
      intros [it [Hit Hin]]. subst kept. apply filter_In in Hin.
      destruct Hin as [_ Hin]. apply negb_true_iff, Z.eqb_neq in Hin. lia.
    + apply NoDup_nodup.
  - intros d [Hd | Hd].
    + subst d. unfold docIDs. rewrite nodup_In.
      destruct (in_dec Z.eq_dec docID (map DocID its)) as [Hin | Hnin]; auto.
      exfalso. apply Hlen. subst kept.
      clear Hlen. induction its as [| a its IH]; simpl in *; auto.
      destruct (DocID a =? docID) eqn:E.
      * apply Z.eqb_eq in E. tauto.
      * simpl. f_equal. apply IH. tauto.
    + unfold docIDs in *. rewrite nodup_In in *.
      apply in_map_iff in Hd. destruct Hd as [it [Hit Hin]].
      apply in_map_iff. exists it. split; auto.
      subst kept. apply filter_In in Hin. tauto.
Qed.

Lemma run_snoc ops o : run (ops ++ [o]) = apply_op (run ops) o.
Proof. unfold run. now rewrite fold_left_app. Qed.

Lemma run_invariant ops :
  Z.of_nat (length ops) < 2 ^ 63 ->
  Z.of_nat (length (docIDs (items (run ops)))) <= numDocs (run ops) <= Z.of_nat (length ops).
Proof.
  induction ops as [| o ops IH] using rev_ind; intros Hlen.
  - simpl. lia.
  - rewrite length_app in *. simpl length in *.
    assert (Hops : Z.of_nat (length ops) < 2 ^ 63) by lia.
    specialize (IH Hops). rewrite run_snoc.
    destruct o as [docID terms | docID]; simpl.
    + unfold Add; simpl.
      rewrite wrap_int_small by lia.
      pose proof (docIDs_Add (items (run ops)) docID terms). lia.
    + unfold Delete.
      destruct ((docID <? minDocID (run ops)) || (maxDocID (run ops) <? docID)); simpl;
        [lia |].
      destruct (length (filter _ _) =? length _)%nat eqn:E; simpl; [lia |].
      apply Nat.eqb_neq in E. apply docIDs_Delete in E.
      assert (Hn : wrap_int (numDocs (run ops) - 1) = numDocs (run ops) - 1)
        by (apply wrap_int_small; lia).
      destruct ((docID =? minDocID (run ops)) || (docID =? maxDocID (run ops))).
      * destruct (0 <? wrap_int (numDocs (run ops) - 1)).
        -- destruct (rescan _ _ _) as [mn mx]. simpl. lia.
        -- simpl. lia.
      * simpl. lia.
Qed.

(** C5 (amended). For every buffer obtained from the empty buffer by a
    sequence of fewer than 2^63 Add and Delete operations: if NumDocs is 0
    then Empty() returns true.  (The converse does not hold: Empty() tests
    the number of items, and NumDocs counts operations.) *)
Theorem NumDocs_zero_Empty :
  forall ops,
    Z.of_nat (length ops) < 2 ^ 63 ->
    NumDocs (run ops) = 0 ->
    Empty (run ops) = true.
Proof.
  intros ops Hlen Hzero.
  pose proof (run_invariant ops Hlen) as [Hlow _].
  unfold NumDocs in Hzero. rewrite Hzero in Hlow.
  unfold Empty. destruct (items (run ops)) as [| it its]; [reflexivity |].
  exfalso.
  assert (Hin : In (DocID it) (docIDs (it :: its)))
    by (unfold docIDs; rewrite nodup_In; simpl; auto).
  destruct (docIDs (it :: its)); [destruct Hin | simpl in Hlow; lia].
Qed.

Lemma NumDocs_zero_Empty_witness :
  Z.of_nat (length [OpAdd 7 [3; 4]; OpDelete 7]) < 2 ^ 63 /\
  NumDocs (run [OpAdd 7 [3; 4]; OpDelete 7]) = 0 /\
  Empty (run [OpAdd 7 [3; 4]; OpDelete 7]) = true.
Proof.
  split; [reflexivity |].
  split; [reflexivity |].
  apply (NumDocs_zero_Empty [OpAdd 7 [3; 4]; OpDelete 7]); reflexivity.
Defined.

(** C5 (as stated) fails: after Add(1, []) the buffer holds one document
    and no item, so Empty() is true while NumDocs is 1. *)
Lemma Empty_iff_NumDocs_zero_fails :
  ~ (Empty (run [OpAdd 1 []]) = true <-> NumDocs (run [OpAdd 1 []]) = 0).
Proof.
  intros [H _]. specialize (H eq_refl). discriminate H.
Qed.

(** C4. The bounds after Add(1, []), Add(2, [9]), Delete(2), and after
    Add(5, [1]), Add(5, [2]), Delete(5): one document is counted
    (NumDocs > 0), the minimum is MaxUint32 and the maximum is 0, so the
    minimum is above the maximum. *)
Theorem Delete_leaves_min_above_max :
  let ib := run [OpAdd 1 []; OpAdd 2 [9]; OpDelete 2] in
  let ib' := run [OpAdd 5 [1]; OpAdd 5 [2]; OpDelete 5] in
  (NumDocs ib = 1 /\ MinDocID ib = MaxUint32 /\ MaxDocID ib = 0 /\
   ~ MinDocID ib <= MaxDocID ib) /\
  (NumDocs ib' = 1 /\ MinDocID ib' = MaxUint32 /\ MaxDocID ib' = 0 /\
   ~ MinDocID ib' <= MaxDocID ib').
Proof.
  vm_compute. repeat split; try reflexivity; intros H; apply H; reflexivity.
Qed.

(** ** Sorting *)

Lemma itemLess_false_lexLe a b : itemLess b a = false <-> lexLe a b.
Proof.
  unfold itemLess, lexLe.
  rewrite orb_false_iff, andb_false_iff, Z.ltb_ge, Z.eqb_neq, Z.ltb_ge. lia.
Qed.

Lemma lexLe_trans a b c : lexLe a b -> lexLe b c -> lexLe a c.
Proof. unfold lexLe. lia. Qed.

Lemma Sorted_lexSorted l :
  Sorted (fun a b => itemLess b a = false) l -> lexSorted l.
Proof.
  intros H. apply Sorted_StronglySorted.
  - intros a b c. apply lexLe_trans.
  - induction H as [| a l Hs IH Hd]; constructor; auto.
    destruct Hd; constructor. now apply itemLess_false_lexLe.
Qed.

Lemma insertSorted_perm less x l : Permutation (insertSorted less x l) (x :: l).
Proof.
  induction l as [| y l IH]; simpl; auto.
  destruct (less y x); auto.
  rewrite IH. apply perm_swap.
Qed.

Lemma insertSorted_sorted x l :
  Sorted (fun a b => itemLess b a = false) l ->
  Sorted (fun a b => itemLess b a = false) (insertSorted itemLess x l).
Proof.
  induction 1 as [| y l Hs IH Hd]; simpl.
  - repeat constructor.
  - destruct (itemLess y x) eqn:E.
    + constructor; auto.
      destruct Hd as [| z l Hz]; simpl.
      * constructor. apply itemLess_false_lexLe.
        unfold itemLess, lexLe in *.
        apply orb_true_iff in E. rewrite andb_true_iff, !Z.ltb_lt, Z.eqb_eq in E. lia.
      * destruct (itemLess z x); constructor; auto.
        apply itemLess_false_lexLe.
        unfold itemLess, lexLe in *.
        apply orb_true_iff in E. rewrite andb_true_iff, !Z.ltb_lt, Z.eqb_eq in E. lia.
    + repeat constructor; auto.
Qed.

Lemma insertionSort_sorts : sorts insertionSort.
Proof.
  intros l. split.
  - induction l as [| x l IH]; simpl; auto.
    rewrite insertSorted_perm. now constructor.
  - induction l as [| x l IH]; simpl.
    + constructor.
    + now apply insertSorted_sorted.
Qed.

(** C6. For any non-empty buffer, the reader returned by Reader() drains
    (two ReadBlock calls: the whole content, then end-of-stream) to a
    sequence that is non-decreasing in (term, docID) and holds the items
    of the buffer; sort.Slice is any function that sorts. *)
Theorem Reader_drains_sorted :
  forall sort_Slice,
    sorts sort_Slice ->
    forall ib,
      Empty ib = false ->
      exists out,
        ReadAllItems 2 (snd (Reader sort_Slice ib)) = Some (Returns (out, None)) /\
        lexSorted out /\
        Permutation out (items ib).
Proof.
  intros sort_Slice Hsort ib Hne.
  destruct (Hsort (items ib)) as [Hperm Hsorted].
  exists (sort_Slice itemLess (items ib)).
  split; [| split; [now apply Sorted_lexSorted | exact Hperm]].
  unfold Reader, ReadAllItems, Empty in *. simpl.
  remember (sort_Slice itemLess (items ib)) as sorted eqn:Es.
  assert (Hlen : length sorted = length (items ib))
    by now apply Permutation_length.
  destruct sorted as [| it sorted].
  - simpl in Hlen. rewrite <- Hlen in Hne. discriminate Hne.
  - simpl. rewrite Nat.leb_refl. now rewrite app_nil_r.
Qed.

Lemma Reader_drains_sorted_witness :
  sorts insertionSort /\
  Empty (run [OpAdd 10 [1; 2]; OpAdd 20 [2; 3]]) = false /\
  exists out,
    ReadAllItems 2 (snd (Reader insertionSort (run [OpAdd 10 [1; 2]; OpAdd 20 [2; 3]])))
    = Some (Returns (out, None)) /\
    lexSorted out /\
    Permutation out (items (run [OpAdd 10 [1; 2]; OpAdd 20 [2; 3]])).
Proof.
  split; [exact insertionSort_sorts |].
  split; [reflexivity |].
  apply (Reader_drains_sorted insertionSort insertionSort_sorts
           (run [OpAdd 10 [1; 2]; OpAdd 20 [2; 3]])).
  reflexivity.
Defined.

End IndexFacts.

Section MergeFacts.
Import index.

(** ** The merge of two sequences *)

Lemma tmerge_nil_l l : tmerge [] l = l.
Proof. destruct l; reflexivity. Qed.

Lemma tmerge_nil_r l : tmerge l [] = l.
Proof. destruct l; reflexivity. Qed.

Lemma tmerge_cons v1 t1 v2 t2 :
  tmerge (v1 :: t1) (v2 :: t2) =
  if takeLeft v1 v2 then v1 :: tmerge t1 (v2 :: t2) else v2 :: tmerge (v1 :: t1) t2.
Proof. reflexivity. Qed.

Lemma tmerge_perm l1 l2 : Permutation (tmerge l1 l2) (l1 ++ l2).
Proof.
  revert l2. induction l1 as [| v1 t1 IH1]; intros l2.
  - now rewrite tmerge_nil_l.
  - induction l2 as [| v2 t2 IH2].
    + now rewrite tmerge_nil_r, app_nil_r.
    + rewrite tmerge_cons. destruct (takeLeft v1 v2).
      * simpl. constructor. apply IH1.
      * rewrite IH2. apply Permutation_middle.
Qed.

Lemma takeLeft_true v1 v2 : takeLeft v1 v2 = true <-> Term v1 <= Term v2.
Proof.
  unfold takeLeft. rewrite orb_true_iff, andb_true_iff, !Z.leb_le, Z.eqb_eq. lia.
Qed.

Lemma takeLeft_false v1 v2 : takeLeft v1 v2 = false <-> Term v2 < Term v1.
Proof.
  rewrite <- not_true_iff_false, takeLeft_true. lia.
Qed.

Lemma tmerge_sorted l1 l2 :
  termSorted l1 -> termSorted l2 -> termSorted (tmerge l1 l2).
Proof.
  unfold termSorted. revert l2.
  induction l1 as [| v1 t1 IH1]; intros l2 H1 H2.
  - now rewrite tmerge_nil_l.
  - induction l2 as [| v2 t2 IH2].
    + now rewrite tmerge_nil_r.
    + rewrite tmerge_cons.
      inversion H1 as [| ? ? Hs1 Hf1]; subst.
      inversion H2 as [| ? ? Hs2 Hf2]; subst.
      destruct (takeLeft v1 v2) eqn:E.
      * apply takeLeft_true in E. constructor; [now apply IH1 |].
        eapply Permutation_Forall; [symmetry; apply tmerge_perm |].
        apply Forall_app. split; [exact Hf1 |].
        constructor; [exact E |].
        eapply Forall_impl; [| exact Hf2]. unfold termLe. intros; lia.
      * apply takeLeft_false in E. constructor; [now apply IH2 |].
        eapply Permutation_Forall; [symmetry; apply tmerge_perm |].
        apply Forall_app. split; [| exact Hf2].
        constructor; [unfold termLe; lia |].
        eapply Forall_impl; [| exact Hf1]. unfold termLe. intros; lia.
Qed.

(** ** One block of a merge node *)

Lemma mergeLoop_stream n :
  forall v1 t1 v2 t2 out b1 b2 c1 c2,
    mergeLoop n v1 t1 v2 t2 = (out, b1, b2) ->
    tmerge ((v1 :: t1) ++ c1) ((v2 :: t2) ++ c2) = out ++ tmerge (b1 ++ c1) (b2 ++ c2).
Proof.
  induction n as [| n IH]; intros v1 t1 v2 t2 out b1 b2 c1 c2 H; simpl in H.
  - now inversion H.
  - simpl app. rewrite tmerge_cons. destruct (takeLeft v1 v2).
    + destruct t1 as [| v1' t1'].
      * now inversion H.
      * destruct (mergeLoop n v1' t1' v2 t2) as [[o x1] x2] eqn:E.
        inversion H; subst. simpl. f_equal. now apply (IH _ _ _ _ _ _ _ c1 c2) in E.
    + destruct t2 as [| v2' t2'].
      * now inversion H.
      * destruct (mergeLoop n v1 t1 v2' t2') as [[o x1] x2] eqn:E.
        inversion H; subst. simpl. f_equal. now apply (IH _ _ _ _ _ _ _ c1 c2) in E.
Qed.

Lemma mergeLoop_progress n v1 t1 v2 t2 out b1 b2 :
  (0 < n)%nat -> mergeLoop n v1 t1 v2 t2 = (out, b1, b2) -> out <> [].
Proof.
  destruct n as [| n]; [lia |]. intros _ H. simpl in H.
  destruct (takeLeft v1 v2).
  - destruct t1; [now inversion H |].
    destruct (mergeLoop n _ _ _ _) as [[o x1] x2]. now inversion H.
  - destruct t2; [now inversion H |].
    destruct (mergeLoop n _ _ _ _) as [[o x1] x2]. now inversion H.
Qed.

Lemma refill_steady block reader :
  steady reader ->
  (isNil reader = false -> exists res, ReadBlock reader = Returns res /\ delivers reader res) ->
  exists block' reader',
    refill block reader (ReadBlock reader) = Returns (block', reader', None) /\
    steady reader' /\
    block ++ pending reader = block' ++ pending reader' /\
    (block' = [] -> pending reader' = []).
Proof.
  intros Hst Hcall. unfold refill.
  destruct block as [| v block]; simpl.
  - destruct (isNil reader) eqn:En; simpl.
    + exists [], reader. destruct reader; try discriminate. repeat split; auto.
    + destruct (Hcall eq_refl) as [[[blk err] r'] [Hr Hd]]. rewrite Hr. simpl.
      destruct Hd as [Hst' [[-> [Hne [_ Hp]]] | [-> [-> Hp]]]].
      * exists blk, r'. repeat split; auto. intros ->. now elim Hne.
      * exists [], nilReader. simpl. repeat split; auto.
  - exists (v :: block), reader. repeat split; auto. discriminate.
Qed.

Lemma ReadBlock_steady r :
  steady r -> isNil r = false ->
  exists res, ReadBlock r = Returns res /\ delivers r res.
Proof.
  induction r as [| ib pos | r1 IH1 r2 IH2 b1 b2 buf | script]; intros Hst Hn.
  - discriminate Hn.
  - simpl. destruct (length (items ib) <=? pos)%nat eqn:E.
    + eexists. split; [reflexivity |]. simpl. split; auto. right.
      repeat split. apply skipn_all2. now apply Nat.leb_le.
    + apply Nat.leb_gt in E.
      eexists. split; [reflexivity |]. simpl. split; auto. left.
      repeat split.
      * intros Hnil. apply (f_equal (@length Item)) in Hnil.
        rewrite length_skipn in Hnil. simpl in Hnil. lia.
      * rewrite (skipn_all2 (n := (pos + _)%nat)); [now rewrite app_nil_r |].
        rewrite length_skipn. lia.
  - destruct Hst as [Hs1 [Hs2 Hbuf]].
    destruct (refill_steady b1 r1 Hs1 (IH1 Hs1)) as [b1' [r1' [E1 [Hs1' [Hp1 Hz1]]]]].
    destruct (refill_steady b2 r2 Hs2 (IH2 Hs2)) as [b2' [r2' [E2 [Hs2' [Hp2 Hz2]]]]].
    simpl ReadBlock. rewrite E1. simpl. rewrite E2. simpl.
    unfold delivers. simpl pending. rewrite Hp1, Hp2.
    destruct b1' as [| v1 t1]; destruct b2' as [| v2 t2].
    + eexists. split; [reflexivity |]. simpl. split; auto. right.
      rewrite (Hz1 eq_refl), (Hz2 eq_refl). auto.
    + eexists. split; [reflexivity |]. simpl. split; auto. left.
      rewrite (Hz1 eq_refl). simpl. rewrite !tmerge_nil_l.
      repeat split; auto. discriminate.
    + eexists. split; [reflexivity |]. simpl. split; auto. left.
      rewrite (Hz2 eq_refl). simpl app. rewrite !tmerge_nil_r.
      repeat split; auto. discriminate.
    + destruct (mergeLoop buf v1 t1 v2 t2) as [[out x1] x2] eqn:E.
      eexists. split; [reflexivity |]. simpl. split; auto. left.
      repeat split.
      * eapply mergeLoop_progress; eauto.
      * eapply mergeLoop_stream in E. exact E.
  - destruct Hst.
Qed.

(** ** Draining a tree *)

Lemma ReadAllItems_loop_steady fuel :
  forall r acc,
    steady r -> isNil r = false ->
    (length (pending r) < fuel)%nat ->
    ReadAllItems_loop fuel r acc = Some (Returns (acc ++ pending r, None)).
Proof.
  induction fuel as [| fuel IH]; intros r acc Hst Hn Hlen; [lia |].
  destruct (ReadBlock_steady r Hst Hn) as [[[blk err] r'] [Hr Hd]].
  simpl. rewrite Hr.
  destruct Hd as [Hst' [[-> [Hne [Hn' Hp]]] | [-> [-> Hp]]]].
  - rewrite IH; auto.
    + now rewrite Hp, app_assoc.
    + rewrite Hp, length_app in Hlen. destruct blk; [now elim Hne | simpl in Hlen; lia].
  - now rewrite Hp.
Qed.

Lemma mergeTwo_steady r0 r1 :
  steady r0 -> isNil r0 = false -> steady r1 -> isNil r1 = false ->
  steady (mergeTwo r0 r1) /\ isNil (mergeTwo r0 r1) = false /\
  pending (mergeTwo r0 r1) = tmerge (pending r0) (pending r1).
Proof.
  intros H0 N0 H1 N1. unfold mergeTwo. rewrite N0, N1. simpl.
  repeat split; auto. lia.
Qed.

Lemma MergeItemReaders_steady n :
  forall readers,
    (length readers <= n)%nat ->
    readers <> [] ->
    Forall live readers ->
    live (MergeItemReaders readers) /\
    Permutation (pending (MergeItemReaders readers)) (concat (map pending readers)) /\
    (Forall (fun r => termSorted (pending r)) readers ->
     termSorted (pending (MergeItemReaders readers))).
Proof.
  induction n as [| n IH]; intros readers Hlen Hne Hall.
  - destruct readers; [now elim Hne | simpl in Hlen; lia].
  - destruct readers as [| r0 [| r1 [| r2 rest]]].
    + now elim Hne.
    + simp MergeItemReaders. inversion Hall; subst. simpl. rewrite app_nil_r.
      repeat split; auto; try apply H1. intros Hs. now inversion Hs.
    + simp MergeItemReaders.
      inversion Hall as [| ? ? [S0 N0] Hall']; subst.
      inversion Hall' as [| ? ? [S1 N1] _]; subst.
      destruct (mergeTwo_steady r0 r1 S0 N0 S1 N1) as [Hs [Hn Hp]].
      rewrite Hp. simpl. rewrite app_nil_r.
      repeat split; auto.
      * apply tmerge_perm.
      * intros Hsorted. inversion Hsorted as [| ? ? T0 Hsorted']; subst.
        inversion Hsorted' as [| ? ? T1 _]; subst. now apply tmerge_sorted.
    + simp MergeItemReaders.
      set (readers := r0 :: r1 :: r2 :: rest) in *.
      set (mid := Nat.div (length readers) 2).
      assert (Hmid : (1 <= mid < length readers)%nat).
      { subst mid. split.
        - apply Nat.div_le_lower_bound; [lia | subst readers; simpl; lia].
        - apply Nat.div_lt; [subst readers; simpl; lia | lia]. }
      assert (Hsplit : readers = firstn mid readers ++ skipn mid readers)
        by (symmetry; apply firstn_skipn).
      assert (Hall2 := Hall). rewrite Hsplit in Hall2. apply Forall_app in Hall2.
      destruct Hall2 as [HallL HallR].
      destruct (IH (firstn mid readers)) as [[SL NL] [PL TL]]; auto.
      { rewrite length_firstn. lia. }
      { intros E. pose proof (length_firstn mid readers) as L. rewrite E in L.
        change (length (@nil ItemReader)) with 0%nat in L. lia. }
      destruct (IH (skipn mid readers)) as [[SR NR] [PR TR]]; auto.
      { rewrite length_skipn. lia. }
      { intros E. pose proof (length_skipn mid readers) as L. rewrite E in L.
        change (length (@nil ItemReader)) with 0%nat in L. lia. }
      cbv zeta. fold mid. simp MergeItemReaders.
      destruct (mergeTwo_steady _ _ SL NL SR NR) as [Hs [Hn Hp]].
      rewrite Hp. repeat split; auto.
      * rewrite tmerge_perm, PL, PR.
        rewrite Hsplit at 3. now rewrite map_app, concat_app.
      * intros Hsorted. rewrite Hsplit in Hsorted. apply Forall_app in Hsorted.
        destruct Hsorted. apply tmerge_sorted; auto.
Qed.


Lemma lexSorted_termSorted l : lexSorted l -> termSorted l.
Proof.
  induction 1 as [| a l Hs IH Hf]; constructor; auto.
  eapply Forall_impl; [| exact Hf]. unfold lexLe, termLe. intros; lia.
Qed.

Lemma ReadAllItems_more_fuel_nil fuel :
  ReadAllItems fuel nilReader = None \/ ReadAllItems fuel nilReader = Some Panics.
Proof. destruct fuel; [now left | now right]. Qed.

(** C1 (amended). For every non-empty list (so for lengths 1, 2, 3 and 7)
    of buffers whose items are sorted, draining the reader built by
    MergeItemReaders over their buffer readers ends with no error and
    yields a rearrangement of the concatenation of all input sequences
    that is ordered by term ascending; for a single buffer it is the
    input sequence itself.  Nothing is said on the order of the docIDs
    of equal terms that come from different inputs. *)
Theorem MergeItemReaders_drains :
  forall ibs : list ItemBuffer,
    ibs <> [] ->
    Forall (fun ib => lexSorted (items ib)) ibs ->
    exists out,
      (forall fuel,
          (length out < fuel)%nat ->
          ReadAllItems fuel (MergeItemReaders (map (fun ib => itemBufferReader ib 0) ibs))
          = Some (Returns (out, None))) /\
      Permutation out (concat (map items ibs)) /\
      termSorted out /\
      (forall ib, ibs = [ib] -> out = items ib).
Proof.
  intros ibs Hne Hsorted.
  set (readers := map (fun ib => itemBufferReader ib 0) ibs).
  assert (Hpend : map pending readers = map items ibs).
  { subst readers. rewrite map_map. apply map_ext. reflexivity. }
  assert (Hlive : Forall live readers).
  { subst readers. apply Forall_map. apply Forall_forall. intros ib _.
    split; simpl; auto. }
  assert (Hne' : readers <> []).
  { subst readers. destruct ibs; [now elim Hne | discriminate]. }
  destruct (MergeItemReaders_steady (length readers) readers (le_n _) Hne' Hlive)
    as [[Hst Hn] [Hperm Hterm]].
  exists (pending (MergeItemReaders readers)).
  split; [| split; [| split]].
  - intros fuel Hfuel. unfold ReadAllItems.
    now rewrite ReadAllItems_loop_steady.
  - now rewrite Hperm, Hpend.
  - apply Hterm. subst readers. apply Forall_map.
    eapply Forall_impl; [| exact Hsorted].
    intros ib H. simpl. now apply lexSorted_termSorted.
  - intros ib ->. subst readers. simpl. now simp MergeItemReaders.
Qed.

Lemma MergeItemReaders_drains_witness :
  let ibs := [run [OpAdd 10 [1; 3]]; run [OpAdd 20 [2]]; run [OpAdd 30 [0; 4]]] in
  ibs <> [] /\
  Forall (fun ib => lexSorted (items ib)) ibs /\
  exists out,
    (forall fuel,
        (length out < fuel)%nat ->
        ReadAllItems fuel (MergeItemReaders (map (fun ib => itemBufferReader ib 0) ibs))
        = Some (Returns (out, None))) /\
    Permutation out (concat (map items ibs)) /\
    termSorted out /\
    (forall ib, ibs = [ib] -> out = items ib).
Proof.
  assert (Hne : [run [OpAdd 10 [1; 3]]; run [OpAdd 20 [2]]; run [OpAdd 30 [0; 4]]] <> [])
    by discriminate.
  assert (Hsorted :
            Forall (fun ib => lexSorted (items ib))
                   [run [OpAdd 10 [1; 3]]; run [OpAdd 20 [2]]; run [OpAdd 30 [0; 4]]]).
  { repeat constructor; unfold lexLe; simpl; lia. }
  split; [exact Hne |].
  split; [exact Hsorted |].
  exact (MergeItemReaders_drains _ Hne Hsorted).
Defined.

(** C1 (as stated) fails twice: with no reader at all the drain does not
    return, and two sorted one-item inputs with the same term come out
    with the larger docID first. *)
Lemma MergeItemReaders_sorted_concatenation_fails :
  (~ exists fuel,
       ReadAllItems fuel (MergeItemReaders (map (fun ib => itemBufferReader ib 0) []))
       = Some (Returns ([], None))) /\
  (lexSorted (items (run [OpAdd 20 [1]])) /\
   lexSorted (items (run [OpAdd 10 [1]])) /\
   ReadAllItems 3
     (MergeItemReaders
        (map (fun ib => itemBufferReader ib 0) [run [OpAdd 20 [1]]; run [OpAdd 10 [1]]]))
   = Some (Returns ([ {| Term := 1; DocID := 20 |}; {| Term := 1; DocID := 10 |} ], None)) /\
   ~ lexSorted [ {| Term := 1; DocID := 20 |}; {| Term := 1; DocID := 10 |} ]).
Proof.
  split.
  - intros [fuel H]. simpl in H. simp MergeItemReaders in H.
    destruct (ReadAllItems_more_fuel_nil fuel) as [E | E]; rewrite E in H; discriminate.
  - split; [repeat constructor |].
    split; [repeat constructor |].
    split; [reflexivity |].
    intros H. inversion H as [| ? ? _ Hf]; subst.
    inversion Hf as [| ? ? Hle _]; subst.
    unfold lexLe in Hle. simpl in Hle. lia.
Qed.

(** C2. The first block of the merge of a buffer holding (term 1, doc 20)
    with a buffer holding (term 1, doc 10): the heads have equal terms,
    the right one is the smaller in (term, docID), and the left one is
    emitted. *)
Theorem ReadBlock_equal_terms_emits_left :
  let left := itemBufferReader (run [OpAdd 20 [1]]) 0 in
  let right := itemBufferReader (run [OpAdd 10 [1]]) 0 in
  itemLess {| Term := 1; DocID := 10 |} {| Term := 1; DocID := 20 |} = true /\
  exists node,
    ReadBlock (MergeItemReaders [left; right])
    = Returns ([ {| Term := 1; DocID := 20 |} ], None, node) /\
    pending node = [ {| Term := 1; DocID := 10 |} ].
Proof.
  split; [reflexivity |]. eexists. split; reflexivity.
Qed.

Lemma takeLeft_equal_terms v1 v2 : Term v1 = Term v2 -> takeLeft v1 v2 = true.
Proof. intros H. apply takeLeft_true. lia. Qed.

(** C3 (amended). MergeItemReaders with zero readers returns nil, the
    absent reader.  As one of the two readers of a pairwise merge it is
    elided like an exhausted source; on its own it cannot be read:
    ReadBlock panics, and so does ReadAllItems. *)
Theorem MergeItemReaders_zero_readers :
  MergeItemReaders [] = nilReader /\
  (forall r, MergeItemReaders [MergeItemReaders []; r] = r /\
             MergeItemReaders [r; MergeItemReaders []] = r) /\
  ReadBlock (MergeItemReaders []) = Panics /\
  (forall fuel, ReadAllItems (S fuel) (MergeItemReaders []) = Some Panics).
Proof.
  split; [now simp MergeItemReaders |]. split.
  - intros r. simp MergeItemReaders. unfold mergeTwo. simpl.
    split; [reflexivity |].
    destruct (isNil r) eqn:E; [| reflexivity].
    destruct r; try discriminate. reflexivity.
  - split; [now simp MergeItemReaders |].
    intros fuel. now simp MergeItemReaders.
Qed.

(** C3 (as stated) fails: whatever the fuel, ReadAllItems over
    MergeItemReaders() does not return the empty sequence. *)
Lemma MergeItemReaders_zero_not_readable :
  ~ exists fuel, ReadAllItems fuel (MergeItemReaders []) = Some (Returns ([], None)).
Proof.
  intros [fuel H]. simp MergeItemReaders in H.
  destruct (ReadAllItems_more_fuel_nil fuel) as [E | E]; rewrite E in H; discriminate.
Qed.

(** C9 (amended). When a source of a merge node fails with an error other
    than end-of-stream, ReadBlock returns that error with no items.  If
    the failing source is the left one, the right source is not read: the
    right pending block and reader are unchanged.  If it is the right
    one, the left pending block and reader are unchanged when the left
    side needed no refill (its block was non-empty, or its reader nil);
    otherwise the left side has been refilled first: its pending block,
    empty before, is the block its source delivered, and its reader is
    the advanced one, or nil when the source signalled end-of-stream. *)
Theorem ReadBlock_source_failure :
  forall reader1 reader2 block1 block2 buf blk e rd,
    e <> EOF ->
    (block1 = [] -> isNil reader1 = false ->
     ReadBlock reader1 = Returns (blk, Some e, rd) ->
     ReadBlock (multiItemReader reader1 reader2 block1 block2 buf)
     = Returns ([], Some e, multiItemReader rd reader2 blk block2 buf))
    /\
    (block2 = [] -> isNil reader2 = false ->
     ReadBlock reader2 = Returns (blk, Some e, rd) ->
     (block1 <> [] \/ isNil reader1 = true ->
      ReadBlock (multiItemReader reader1 reader2 block1 block2 buf)
      = Returns ([], Some e, multiItemReader reader1 rd block1 blk buf)) /\
     (forall blk1 rd1,
         block1 = [] -> isNil reader1 = false ->
         ReadBlock reader1 = Returns (blk1, None, rd1) ->
         ReadBlock (multiItemReader reader1 reader2 block1 block2 buf)
         = Returns ([], Some e, multiItemReader rd1 rd blk1 blk buf)) /\
     (forall blk1 rd1,
         block1 = [] -> isNil reader1 = false ->
         ReadBlock reader1 = Returns (blk1, Some EOF, rd1) ->
         ReadBlock (multiItemReader reader1 reader2 block1 block2 buf)
         = Returns ([], Some e, multiItemReader nilReader rd blk1 blk buf))).
Proof.
  intros reader1 reader2 block1 block2 buf blk e rd He. split.
  - intros -> Hn Hr. simpl. unfold refill at 1. simpl. rewrite Hn. simpl.
    rewrite Hr. simpl. destruct e; [now elim He | reflexivity].
  - intros -> Hn Hr.
    assert (Hright :
              refill [] reader2 (ReadBlock reader2) = Returns (blk, rd, Some e)).
    { unfold refill. simpl. rewrite Hn, Hr. simpl.
      destruct e; [now elim He | reflexivity]. }
    assert (Hkeep :
              block1 <> [] \/ isNil reader1 = true ->
              ReadBlock (multiItemReader reader1 reader2 block1 [] buf)
              = Returns ([], Some e, multiItemReader reader1 rd block1 blk buf)).
    { intros Hk.
      assert (Hleft : refill block1 reader1 (ReadBlock reader1)
                      = Returns (block1, reader1, None)).
      { unfold refill. destruct block1 as [| v block1]; [| reflexivity].
        destruct Hk as [Hk | Hk]; [now elim Hk |]. rewrite Hk. reflexivity. }
      cbn [ReadBlock]. rewrite Hleft. cbn [bind]. rewrite Hright. reflexivity. }
    assert (Hmore :
              forall blk1 rd1,
                block1 = [] -> isNil reader1 = false ->
                ReadBlock reader1 = Returns (blk1, None, rd1) ->
                ReadBlock (multiItemReader reader1 reader2 block1 [] buf)
                = Returns ([], Some e, multiItemReader rd1 rd blk1 blk buf)).
    { intros blk1 rd1 -> En Hr1. simpl. unfold refill at 1. simpl.
      rewrite En, Hr1. simpl. rewrite Hright. reflexivity. }
    assert (Hlast :
              forall blk1 rd1,
                block1 = [] -> isNil reader1 = false ->
                ReadBlock reader1 = Returns (blk1, Some EOF, rd1) ->
                ReadBlock (multiItemReader reader1 reader2 block1 [] buf)
                = Returns ([], Some e, multiItemReader nilReader rd blk1 blk buf)).
    { intros blk1 rd1 -> En Hr1. simpl. unfold refill at 1. simpl.
      rewrite En, Hr1. simpl. rewrite Hright. reflexivity. }
    split; [exact Hkeep |]. split; [exact Hmore | exact Hlast].
Qed.

Lemma ReadBlock_source_failure_witness :
  ReadError 1 <> EOF /\
  ReadBlock (multiItemReader (scriptedReader [([], Some (ReadError 1))])
                             (itemBufferReader (run [OpAdd 10 [1]]) 0)
                             [] [ {| Term := 2; DocID := 5 |} ] 1024)
  = Returns ([], Some (ReadError 1),
             multiItemReader (scriptedReader [])
                             (itemBufferReader (run [OpAdd 10 [1]]) 0)
                             [] [ {| Term := 2; DocID := 5 |} ] 1024) /\
  ReadBlock (multiItemReader (itemBufferReader (run [OpAdd 10 [1]]) 0)
                             (scriptedReader [([], Some (ReadError 1))])
                             [ {| Term := 0; DocID := 3 |} ] [] 1024)
  = Returns ([], Some (ReadError 1),
             multiItemReader (itemBufferReader (run [OpAdd 10 [1]]) 0)
                             (scriptedReader [])
                             [ {| Term := 0; DocID := 3 |} ] [] 1024) /\
  ReadBlock (multiItemReader (itemBufferReader (run [OpAdd 10 [1]]) 0)
                             (scriptedReader [([], Some (ReadError 1))])
                             [] [] 1024)
  = Returns ([], Some (ReadError 1),
             multiItemReader (itemBufferReader (run [OpAdd 10 [1]]) 1)
                             (scriptedReader [])
                             [ {| Term := 1; DocID := 10 |} ] [] 1024) /\
  ReadBlock (multiItemReader
               (scriptedReader [([ {| Term := 3; DocID := 7 |} ], Some EOF)])
               (scriptedReader [([], Some (ReadError 1))])
               [] [] 1024)
  = Returns ([], Some (ReadError 1),
             multiItemReader nilReader (scriptedReader [])
                             [ {| Term := 3; DocID := 7 |} ] [] 1024).
Proof.
  assert (He : ReadError 1 <> EOF) by discriminate.
  split; [exact He |]. split; [| split; [| split]].
  - apply (proj1 (ReadBlock_source_failure
                    (scriptedReader [([], Some (ReadError 1))])
                    (itemBufferReader (run [OpAdd 10 [1]]) 0)
                    [] [ {| Term := 2; DocID := 5 |} ] 1024
                    [] (ReadError 1) (scriptedReader []) He));
      reflexivity.
  - apply (proj1 (proj2 (ReadBlock_source_failure
                           (itemBufferReader (run [OpAdd 10 [1]]) 0)
                           (scriptedReader [([], Some (ReadError 1))])
                           [ {| Term := 0; DocID := 3 |} ] [] 1024
                           [] (ReadError 1) (scriptedReader []) He)
                        eq_refl eq_refl eq_refl)).
    left. discriminate.
  - apply (proj1 (proj2 (proj2 (ReadBlock_source_failure
                                  (itemBufferReader (run [OpAdd 10 [1]]) 0)
                                  (scriptedReader [([], Some (ReadError 1))])
                                  [] [] 1024
                                  [] (ReadError 1) (scriptedReader []) He)
                               eq_refl eq_refl eq_refl))
             [ {| Term := 1; DocID := 10 |} ]
             (itemBufferReader (run [OpAdd 10 [1]]) 1));
      reflexivity.
  - apply (proj2 (proj2 (proj2 (ReadBlock_source_failure
                                  (scriptedReader
                                     [([ {| Term := 3; DocID := 7 |} ], Some EOF)])
                                  (scriptedReader [([], Some (ReadError 1))])
                                  [] [] 1024
                                  [] (ReadError 1) (scriptedReader []) He)
                               eq_refl eq_refl eq_refl))
             [ {| Term := 3; DocID := 7 |} ] (scriptedReader []));
      reflexivity.
Defined.

(** C9 (as stated) fails: the left pending block is empty, the left source
    delivers its last block, the right source fails; the error is
    returned, and the left side has changed: its block is now filled and
    its reader is nil. *)
Lemma ReadBlock_failure_changes_left_side :
  ReadBlock (multiItemReader
               (scriptedReader [([ {| Term := 1; DocID := 1 |} ], Some EOF)])
               (scriptedReader [([], Some (ReadError 1))])
               [] [] 1024)
  = Returns ([], Some (ReadError 1),
             multiItemReader nilReader (scriptedReader [])
                             [ {| Term := 1; DocID := 1 |} ] [] 1024) /\
  [ {| Term := 1; DocID := 1 |} ] <> ([] : list Item) /\
  nilReader <> scriptedReader [([ {| Term := 1; DocID := 1 |} ], Some EOF)].
Proof.
  split; [reflexivity |]. split; discriminate.
Qed.

End MergeFacts.

(** * Facts about package chromaprint *)

Section CodecFacts.
Import chromaprint.

Variable unpackInt3Array : list byte -> list Z.
Variable unpackInt5Array : list byte -> list Z.
Variable RawURLEncoding_DecodeString : string -> list byte * option error.

Lemma last_cons_nonempty (a d : Z) l : l <> [] -> last (a :: l) d = last l d.
Proof. destruct l; [now intros H; elim H | reflexivity]. Qed.

Lemma zeros_cons bit rest :
  zeros (bit :: rest) = ((if (bit =? 0)%Z then 1 else 0) + zeros rest)%nat.
Proof. unfold zeros. simpl. now destruct (bit =? 0). Qed.

Lemma sevens_cons bit rest :
  sevens (bit :: rest) = ((if (bit =? 7)%Z then 1 else 0) + sevens rest)%nat.
Proof. unfold sevens. simpl. now destruct (bit =? 7). Qed.

Lemma scanBits_cut totalValues :
  forall bits bi numValues numExc numValues' numExc' k,
    numValues < totalValues ->
    scanBits totalValues bits bi numValues numExc = (numValues', numExc', Some k) ->
    exists n,
      k = (bi + n)%nat /\
      last (firstn n bits) 1 = 0 /\
      numValues + Z.of_nat (zeros (firstn n bits)) = totalValues /\
      numExc' = numExc + Z.of_nat (sevens (firstn n bits)) /\
      numValues' = totalValues.
Proof.
  induction bits as [| bit rest IH]; intros bi nv ne nv' ne' k Hlt H; simpl in H.
  - discriminate H.
  - assert (Hstep :
              forall nv0 ne0,
                nv0 < totalValues ->
                scanBits totalValues rest (S bi) nv0 ne0 = (nv', ne', Some k) ->
                exists n,
                  k = (bi + n)%nat /\
                  last (firstn n (bit :: rest)) 1 = 0 /\
                  nv0 + Z.of_nat (zeros (firstn n (bit :: rest)))
                  = totalValues + (if bit =? 0 then 1 else 0) /\
                  ne' = ne0 + Z.of_nat (sevens (firstn n (bit :: rest)))
                        - (if bit =? 7 then 1 else 0) /\
                  nv' = totalValues).
    { intros nv0 ne0 Hlt0 H0. apply IH in H0; [| exact Hlt0].
      destruct H0 as [n [-> [Hl [Hz [Hs ->]]]]].
      exists (S n). simpl firstn. rewrite zeros_cons, sevens_cons.
      assert (Hne : firstn n rest <> [])
        by (intros E; rewrite E in Hl; discriminate Hl).
      rewrite last_cons_nonempty by exact Hne.
      repeat split; try lia.
      - destruct (bit =? 0); lia.
      - destruct (bit =? 7); lia. }
    destruct (bit =? 0) eqn:E0.
    + destruct (nv + 1 =? totalValues) eqn:Et.
      * inversion H; subst. exists 1%nat. apply Z.eqb_eq in Et.
        simpl firstn. rewrite zeros_cons, sevens_cons, E0.
        apply Z.eqb_eq in E0. subst bit. simpl. repeat split; lia.
      * apply Z.eqb_neq in Et. apply Hstep in H; [| lia].
        destruct H as [n [-> [Hl [Hz [Hs ->]]]]]. exists n.
        apply Z.eqb_eq in E0. subst bit. simpl in Hs. repeat split; auto; lia.
    + destruct (bit =? 7) eqn:E7.
      * apply Hstep in H; [| lia].
        destruct H as [n [-> [Hl [Hz [Hs ->]]]]]. exists n. repeat split; auto; lia.
      * apply Hstep in H; [| lia].
        destruct H as [n [-> [Hl [Hz [Hs ->]]]]]. exists n. repeat split; auto; lia.
Qed.

Lemma scanBits_short totalValues :
  forall bits bi numValues numExc numValues' numExc',
    numValues < totalValues ->
    scanBits totalValues bits bi numValues numExc = (numValues', numExc', None) ->
    numValues' < totalValues.
Proof.
  induction bits as [| bit rest IH]; intros bi nv ne nv' ne' Hlt H; simpl in H.
  - inversion H; subst. exact Hlt.
  - destruct (bit =? 0).
    + destruct (nv + 1 =? totalValues) eqn:Et; [discriminate H |].
      apply Z.eqb_neq in Et. apply IH in H; lia.
    + destruct (bit =? 7); apply IH in H; lia.
Qed.


Lemma wrap_int8_small z : -128 <= z < 128 -> wrap_int8 z = z.
Proof. intros H. unfold wrap_int8. rewrite Z.mod_small; lia. Qed.

Lemma addExceptional_returns :
  forall bits exceptionalBits ei,
    (ei + sevens bits <= length exceptionalBits)%nat ->
    Forall (fun x => 0 <= x <= 31) exceptionalBits ->
    exists bits',
      addExceptional bits exceptionalBits ei = Returns bits' /\
      map (fun bit => bit =? 0) bits' = map (fun bit => bit =? 0) bits.
Proof.
  induction bits as [| bit rest IH]; intros exc ei Hlen Hrange; simpl.
  - now exists [].
  - rewrite sevens_cons in Hlen. destruct (bit =? 7) eqn:E7; cbv iota in Hlen.
    + destruct (nth_error exc ei) as [x |] eqn:Ex.
      * destruct (IH exc (S ei)) as [rest' [Hr Hm]]; [lia | exact Hrange |].
        rewrite Hr. simpl. eexists. split; [reflexivity |]. simpl. rewrite Hm.
        f_equal. apply Z.eqb_eq in E7. subst bit.
        apply nth_error_In in Ex. rewrite Forall_forall in Hrange.
        apply Hrange in Ex. rewrite wrap_int8_small by lia.
        change (7 =? 0) with false. apply Z.eqb_neq. lia.
      * apply nth_error_None in Ex. lia.
    + destruct (IH exc ei) as [rest' [Hr Hm]]; [lia | exact Hrange |].
      rewrite Hr. simpl. eexists. split; [reflexivity |]. simpl. now rewrite Hm.
Qed.

Lemma inBounds_mask :
  forall bits bits' hi len,
    map (fun bit => bit =? 0) bits' = map (fun bit => bit =? 0) bits ->
    inBounds bits hi len -> inBounds bits' hi len.
Proof.
  induction bits as [| bit rest IH]; intros bits' hi len Hm Hb.
  - destruct bits'; [exact I | discriminate Hm].
  - destruct bits' as [| bit' rest']; [discriminate Hm |].
    simpl in Hm. inversion Hm as [[Hhead Htail]]. simpl in *. rewrite Hhead.
    destruct (bit =? 0); destruct Hb as [Hhi Hb]; split; auto; eapply IH; eauto.
Qed.

Lemma zeros_last bits : last bits 1 = 0 -> (1 <= zeros bits)%nat.
Proof.
  induction bits as [| bit rest IH]; intros H.
  - discriminate H.
  - rewrite zeros_cons. destruct rest as [| bit' rest'].
    + simpl in H. subst bit. simpl. lia.
    + rewrite last_cons_nonempty in H by discriminate. apply IH in H. lia.
Qed.

Lemma inBounds_cut :
  forall bits hi len,
    last bits 1 = 0 ->
    (hi + zeros bits <= len)%nat ->
    inBounds bits hi len.
Proof.
  induction bits as [| bit rest IH]; intros hi len Hlast Hlen.
  - exact I.
  - rewrite zeros_cons in Hlen. simpl.
    destruct rest as [| bit' rest'].
    + simpl in Hlast. subst bit. simpl in *. split; [right; lia | exact I].
    + rewrite last_cons_nonempty in Hlast by discriminate.
      pose proof (zeros_last _ Hlast) as Hz.
      destruct (bit =? 0).
      * split; [right; lia |]. apply IH; [exact Hlast | lia].
      * split; [lia |]. apply IH; [exact Hlast | lia].
Qed.

Lemma store_length hashes hi v : length (store hashes hi v) = length hashes.
Proof.
  revert hi. induction hashes as [| h t IH]; intros hi; simpl.
  - now destruct hi.
  - destruct hi; simpl; [reflexivity | now rewrite IH].
Qed.

(** When every index is in bounds, which is the case after the cut at
    the last expected zero code, the loop that rebuilds the hashes
    returns: no access to [hashes] is out of range. *)
Lemma buildHashes_returns :
  forall bits hashes hi lastBit,
    inBounds bits hi (length hashes) ->
    exists hashes',
      buildHashes bits hashes hi lastBit = Returns hashes' /\
      length hashes' = length hashes.
Proof.
  induction bits as [| bit rest IH]; intros hashes hi lastBit Hb; simpl.
  - now exists hashes.
  - simpl in Hb. destruct (bit =? 0).
    + destruct Hb as [Hhi Hb].
      destruct (0 <? hi)%nat eqn:Epos.
      * apply Nat.ltb_lt in Epos.
        destruct Hhi as [Hhi | Hhi]; [lia |].
        destruct (nth_error hashes hi) as [h |] eqn:Eh;
          [| apply nth_error_None in Eh; lia].
        destruct (nth_error hashes (hi - 1)) as [prev |] eqn:Ep;
          [| apply nth_error_None in Ep; lia].
        simpl.
        destruct (IH (store hashes hi (Z.lxor h prev)) (S hi) 0) as [h' [Hr Hl]].
        { now rewrite store_length. }
        exists h'. rewrite Hr. split; [reflexivity |]. now rewrite Hl, store_length.
      * simpl. now apply IH.
    + destruct Hb as [Hhi Hb].
      destruct (nth_error hashes hi) as [h |] eqn:Eh;
        [| apply nth_error_None in Eh; lia].
      match goal with
      | |- context [buildHashes rest ?hs hi ?lb] =>
          destruct (IH hs hi lb) as [h' [Hr Hl]]
      end.
      { now rewrite store_length. }
      exists h'. rewrite Hr. split; [reflexivity |]. now rewrite Hl, store_length.
Qed.

Ltac invalid := right; left; eexists; (split; [| split; reflexivity]); reflexivity.

(** The two modes of [unpackFingerprint] end the same way. *)
Lemma unpackFingerprint_modes :
  fiveBitCodes unpackInt5Array ->
  forall data fp0,
    (unpackFingerprint unpackInt3Array unpackInt5Array data None = Panics /\ unpackFingerprint unpackInt3Array unpackInt5Array data (Some fp0) = Panics) \/
    (exists e,
        Cause e = ErrInvalidFingerprint /\
        unpackFingerprint unpackInt3Array unpackInt5Array data None = Returns (Some e, None) /\
        unpackFingerprint unpackInt3Array unpackInt5Array data (Some fp0) = Returns (Some e, Some fp0)) \/
    (exists fp,
        unpackFingerprint unpackInt3Array unpackInt5Array data None = Returns (None, None) /\
        unpackFingerprint unpackInt3Array unpackInt5Array data (Some fp0) = Returns (None, Some fp)).
Proof.
  intros H5 data fp0. unfold unpackFingerprint.
  destruct (length data <? 4)%nat.
  { invalid. }
  destruct (BigEndian_Uint32 data) as [header |]; [| now left].
  cbn [bind].
  set (totalValues := Z.land header 16777215).
  set (version := Z.land (Z.shiftr header 24) 255).
  assert (Htv : 0 <= totalValues) by (subst totalValues; apply Z.land_nonneg; lia).
  destruct (totalValues =? 0) eqn:Etv.
  { invalid. }
  apply Z.eqb_neq in Etv.
  destruct (slice_from data 4) as [rest |]; [| now left].
  cbn [bind].
  destruct (scanBits totalValues (unpackInt3Array rest) 0 0 0)
    as [[numValues numExc] cut] eqn:Escan.
  destruct cut as [k |].
  - apply scanBits_cut in Escan; [| lia].
    destruct Escan as [n [-> [Hlast [Hzeros [Hsevens ->]]]]].
    rewrite Z.add_0_l in Hzeros, Hsevens.
    change (0 + n)%nat with n.
    rewrite Z.eqb_refl. cbn [negb].
    set (bits := firstn n (unpackInt3Array rest)) in *.
    assert (Hfit : inBounds bits 0 (length (repeat 0 (Z.to_nat totalValues)))).
    { apply inBounds_cut; [exact Hlast |]. rewrite repeat_length. lia. }
    destruct (0 <? numExc) eqn:Eexc.
    + destruct (slice_from data _) as [rest' |]; [| now left].
      cbn [bind].
      destruct (Z.of_nat (length (unpackInt5Array rest')) =? numExc) eqn:Elen;
        cbn [negb bind].
      * apply Z.eqb_eq in Elen.
        destruct (addExceptional_returns bits (unpackInt5Array rest') 0)
          as [bits' [Hr Hm]]; [lia | apply H5 |].
        rewrite Hr. cbn [bind].
        destruct (buildHashes_returns bits' (repeat 0 (Z.to_nat totalValues)) 0 0)
          as [hashes [Hh _]].
        { eapply inBounds_mask; eauto. }
        rewrite Hh. cbn [bind]. right. right. eexists. split; reflexivity.
      * invalid.
    + cbn [bind].
      destruct (buildHashes_returns bits (repeat 0 (Z.to_nat totalValues)) 0 0)
        as [hashes [Hh _]]; [exact Hfit |].
      rewrite Hh. cbn [bind]. right. right. eexists. split; reflexivity.
  - apply scanBits_short in Escan; [| lia].
    destruct (numValues =? totalValues) eqn:E; [apply Z.eqb_eq in E; lia |].
    cbn [negb]. invalid.
Qed.


Lemma unpackFingerprint_error_kind :
  forall data fp e fp',
    unpackFingerprint unpackInt3Array unpackInt5Array data fp = Returns (Some e, fp') ->
    Cause e = ErrInvalidFingerprint /\ fp' = fp.
Proof.
  intros data fp e fp' H. unfold unpackFingerprint in H.
  destruct (length data <? 4)%nat; [inversion H; subst; split; reflexivity |].
  destruct (BigEndian_Uint32 data) as [header |]; [| discriminate H].
  cbn [bind] in H.
  set (totalValues := Z.land header 16777215) in H.
  set (version := Z.land (Z.shiftr header 24) 255) in H.
  destruct (totalValues =? 0); [inversion H; subst; split; reflexivity |].
  destruct (slice_from data 4) as [rest |]; [| discriminate H].
  cbn [bind] in H.
  destruct (scanBits totalValues (unpackInt3Array rest) 0 0 0)
    as [[numValues numExc] cut].
  destruct (negb (numValues =? totalValues));
    [inversion H; subst; split; reflexivity |].
  destruct (0 <? numExc).
  - destruct (slice_from data _) as [rest' |]; [| discriminate H].
    cbn [bind] in H.
    destruct (negb (Z.of_nat (length (unpackInt5Array rest')) =? numExc));
      cbn [bind] in H; [inversion H; subst; split; reflexivity |].
    destruct (addExceptional _ _ _) as [bits' |]; [| discriminate H].
    cbn [bind] in H. destruct fp; [| discriminate H].
    destruct (buildHashes _ _ _ _); discriminate H.
  - cbn [bind] in H. destruct fp; [| discriminate H].
    destruct (buildHashes _ _ _ _); discriminate H.
Qed.

End CodecFacts.

Section CodecModel.
Import chromaprint.

Lemma bits_value5_range a b c d e : 0 <= bits_value [a; b; c; d; e] <= 31.
Proof. destruct a, b, c, d, e; cbv; split; discriminate. Qed.

Lemma codes5_range_upto n :
  forall bs, (length bs <= n)%nat -> Forall (fun x => 0 <= x <= 31) (codes5 bs).
Proof.
  induction n as [| n IH]; intros bs Hlen.
  - destruct bs; [constructor | simpl in Hlen; lia].
  - destruct bs as [| a [| b [| c [| d [| e rest]]]]]; try constructor.
    + apply bits_value5_range.
    + apply IH. simpl in Hlen. lia.
Qed.

Lemma unpackInt5Array_codes : fiveBitCodes unpackInt5Array.
Proof.
  intros data. unfold unpackInt5Array. eapply codes5_range_upto. apply le_n.
Qed.

(** C7. In whatever way [unpackFingerprint] ends on some bytes, validation
    and full decoding end the same way: ValidateFingerprint returns true
    exactly when ParseFingerprint returns a fingerprint, false exactly when
    it returns an error, and panics exactly when it panics.  The 5-bit
    helper is any function giving codes between 0 and 31. *)
Theorem ValidateFingerprint_iff_ParseFingerprint :
  forall unpackInt3Array unpackInt5Array,
    fiveBitCodes unpackInt5Array ->
    forall data,
      (ValidateFingerprint unpackInt3Array unpackInt5Array data = Returns true <->
       exists fp,
         ParseFingerprint unpackInt3Array unpackInt5Array data = Returns (Some fp, None)) /\
      (ValidateFingerprint unpackInt3Array unpackInt5Array data = Returns false <->
       exists e,
         ParseFingerprint unpackInt3Array unpackInt5Array data = Returns (None, Some e)) /\
      (ValidateFingerprint unpackInt3Array unpackInt5Array data = Panics <->
       ParseFingerprint unpackInt3Array unpackInt5Array data = Panics).
Proof.
  intros u3 u5 H5 data. unfold ValidateFingerprint, ParseFingerprint.
  destruct (unpackFingerprint_modes u3 u5 H5 data {| Version := 0; Hashes := [] |})
    as [[Hv Hp] | [[e [_ [Hv Hp]]] | [fp [Hv Hp]]]];
    rewrite Hv, Hp; cbn [bind].
  - repeat split; try discriminate; intros [x Hx]; discriminate Hx.
  - repeat split; try discriminate.
    + intros [x Hx]; discriminate Hx.
    + intros _. now exists e.
  - repeat split; try discriminate.
    + intros _. now exists fp.
    + intros [x Hx]; discriminate Hx.
Qed.

Lemma ValidateFingerprint_iff_ParseFingerprint_witness :
  fiveBitCodes unpackInt5Array /\
  (ValidateFingerprint unpackInt3Array unpackInt5Array [x01; x00; x00; x02; x20; x00]
   = Returns true <->
   exists fp,
     ParseFingerprint unpackInt3Array unpackInt5Array [x01; x00; x00; x02; x20; x00]
     = Returns (Some fp, None)).
Proof.
  split; [exact unpackInt5Array_codes |].
  exact (proj1 (ValidateFingerprint_iff_ParseFingerprint
                  unpackInt3Array unpackInt5Array unpackInt5Array_codes
                  [x01; x00; x00; x02; x20; x00])).
Defined.

Lemma decodeChars_error :
  forall src si dbuf dst data e,
    decodeChars src si dbuf dst = (data, Some e) ->
    exists off, e = CorruptInputError off.
Proof.
  induction src as [| c rest IH]; intros si dbuf dst data e H; simpl in H.
  - destruct dbuf as [| d [| d' dbuf]]; inversion H; subst. now eexists.
  - destruct (decodeMap c) as [v |].
    + destruct (length (dbuf ++ [v]) =? 4)%nat; eapply IH; exact H.
    + destruct ((N_of_ascii c =? 10)%N || (N_of_ascii c =? 13)%N).
      * eapply IH; exact H.
      * inversion H; subst. now eexists.
Qed.

Lemma Cause_Wrap e msg : Cause (Wrap e msg) = Cause e.
Proof. reflexivity. Qed.

(** C8 (amended). Every error returned by ParseFingerprint has the kind
    InvalidFingerprint.  On the empty string DecodeFingerprintString
    fails with InvalidFingerprint and ParseFingerprintString fails with
    that error wrapped, of the same kind.  On any other text
    DecodeFingerprintString returns what the base64 decoder returns,
    unchanged; when the decoder fails, ParseFingerprintString fails with
    the decoder's error wrapped with the message 'decoding failed', whose
    kind is the kind of the decoder's error; when the decoder succeeds,
    ParseFingerprintString is ParseFingerprint on the decoded bytes.
    These are all the failures: an error of DecodeFingerprintString is
    InvalidFingerprint on the empty string and the decoder's otherwise,
    and an error of ParseFingerprintString either has the kind
    InvalidFingerprint or is the decoder's error wrapped.  The error of
    the base64 decoder on malformed text is a CorruptInputError, so that
    failure of ParseFingerprintString is not of kind InvalidFingerprint. *)
Theorem decode_failure_kinds :
  forall unpackInt3Array unpackInt5Array RawURLEncoding_DecodeString,
    (forall data fp e,
        ParseFingerprint unpackInt3Array unpackInt5Array data = Returns (fp, Some e) ->
        fp = None /\ Cause e = ErrInvalidFingerprint) /\
    DecodeFingerprintString RawURLEncoding_DecodeString ""
    = ([], Some ErrInvalidFingerprint) /\
    (ParseFingerprintString unpackInt3Array unpackInt5Array
                            RawURLEncoding_DecodeString ""
     = Returns (None, Some (Wrap ErrInvalidFingerprint "decoding failed")) /\
     Cause (Wrap ErrInvalidFingerprint "decoding failed") = ErrInvalidFingerprint) /\
    (forall str,
        str <> ""%string ->
        DecodeFingerprintString RawURLEncoding_DecodeString str
        = RawURLEncoding_DecodeString str) /\
    (forall str data e0,
        str <> ""%string ->
        RawURLEncoding_DecodeString str = (data, Some e0) ->
        ParseFingerprintString unpackInt3Array unpackInt5Array
                               RawURLEncoding_DecodeString str
        = Returns (None, Some (Wrap e0 "decoding failed")) /\
        Cause (Wrap e0 "decoding failed") = Cause e0) /\
    (forall str data,
        str <> ""%string ->
        RawURLEncoding_DecodeString str = (data, None) ->
        ParseFingerprintString unpackInt3Array unpackInt5Array
                               RawURLEncoding_DecodeString str
        = ParseFingerprint unpackInt3Array unpackInt5Array data) /\
    (forall str data e,
        DecodeFingerprintString RawURLEncoding_DecodeString str = (data, Some e) ->
        (str = ""%string /\ e = ErrInvalidFingerprint) \/
        (str <> ""%string /\ RawURLEncoding_DecodeString str = (data, Some e))) /\
    (forall str fp e,
        ParseFingerprintString unpackInt3Array unpackInt5Array
                               RawURLEncoding_DecodeString str = Returns (fp, Some e) ->
        fp = None /\
        (Cause e = ErrInvalidFingerprint \/
         (str <> ""%string /\
          exists data e0,
            RawURLEncoding_DecodeString str = (data, Some e0) /\
            e = Wrap e0 "decoding failed"))) /\
    (forall str data e0,
        str <> ""%string ->
        chromaprint.RawURLEncoding_DecodeString str = (data, Some e0) ->
        exists off,
          e0 = CorruptInputError off /\
          DecodeFingerprintString chromaprint.RawURLEncoding_DecodeString str
          = (data, Some (CorruptInputError off)) /\
          ParseFingerprintString unpackInt3Array unpackInt5Array
                                 chromaprint.RawURLEncoding_DecodeString str
          = Returns (None, Some (Wrap (CorruptInputError off) "decoding failed")) /\
          Cause (Wrap (CorruptInputError off) "decoding failed")
          <> ErrInvalidFingerprint).
Proof.
  intros u3 u5 dec.
  assert (Hparse :
            forall data fp e,
              ParseFingerprint u3 u5 data = Returns (fp, Some e) ->
              fp = None /\ Cause e = ErrInvalidFingerprint).
  { intros data fp e H. unfold ParseFingerprint in H.
    destruct (unpackFingerprint u3 u5 data _) as [[[e' |] fp'] |] eqn:E;
      cbn [bind] in H; try discriminate H.
    inversion H; subst. split; [reflexivity |].
    now apply unpackFingerprint_error_kind in E. }
  assert (Hpass :
            forall (d : string -> list byte * option error) str,
              str <> ""%string -> DecodeFingerprintString d str = d str).
  { intros d str Hne. unfold DecodeFingerprintString.
    destruct str as [| c str]; [now elim Hne | reflexivity]. }
  assert (Hwrap :
            forall (d : string -> list byte * option error) str data e0,
              str <> ""%string -> d str = (data, Some e0) ->
              ParseFingerprintString u3 u5 d str
              = Returns (None, Some (Wrap e0 "decoding failed"))).
  { intros d str data e0 Hne Hd. unfold ParseFingerprintString.
    rewrite (Hpass d str Hne), Hd. reflexivity. }
  assert (Hdecode :
            forall str data e,
              DecodeFingerprintString dec str = (data, Some e) ->
              (str = ""%string /\ e = ErrInvalidFingerprint) \/
              (str <> ""%string /\ dec str = (data, Some e))).
  { intros str data e H. unfold DecodeFingerprintString in H.
    destruct str as [| c str]; simpl in H.
    - left. inversion H. split; reflexivity.
    - right. split; [discriminate | exact H]. }
  split; [exact Hparse |]. split; [reflexivity |].
  split; [split; reflexivity |].
  split; [exact (Hpass dec) |].
  split; [intros str data e0 Hne Hd; split; [now apply (Hwrap dec str data) | reflexivity] |].
  split.
  { intros str data Hne Hd. unfold ParseFingerprintString.
    rewrite (Hpass dec str Hne), Hd. reflexivity. }
  split; [exact Hdecode |]. split.
  - intros str fp e H. unfold ParseFingerprintString in H.
    destruct (DecodeFingerprintString dec str) as [data [e0 |]] eqn:E.
    + inversion H; subst. split; [reflexivity |].
      destruct (Hdecode _ _ _ E) as [[_ ->] | [Hne Hdec]].
      * left. reflexivity.
      * right. split; [exact Hne |]. now exists data, e0.
    + apply Hparse in H. destruct H as [-> Hc]. split; [reflexivity | now left].
  - intros str data e0 Hne Hd.
    destruct (decodeChars_error _ _ _ _ _ _ Hd) as [off ->].
    exists off. split; [reflexivity |].
    split; [rewrite (Hpass _ str Hne); exact Hd |].
    split; [now apply (Hwrap _ str data) | discriminate].
Qed.

Lemma decode_failure_kinds_witness :
  (ParseFingerprint unpackInt3Array unpackInt5Array [x01; x00; x00]
   = Returns (None, Some (Wrap ErrInvalidFingerprint
                               "encoded fingerprint is less than 4 bytes")) /\
   Cause (Wrap ErrInvalidFingerprint "encoded fingerprint is less than 4 bytes")
   = ErrInvalidFingerprint) /\
  (ParseFingerprintString unpackInt3Array unpackInt5Array RawURLEncoding_DecodeString
                          "AQAAAA"
   = Returns (None, Some (Wrap ErrInvalidFingerprint "fingerprint contains no items")) /\
   (Cause (Wrap ErrInvalidFingerprint "fingerprint contains no items")
    = ErrInvalidFingerprint \/
    ("AQAAAA"%string <> ""%string /\
     exists data e0,
       RawURLEncoding_DecodeString "AQAAAA" = (data, Some e0) /\
       Wrap ErrInvalidFingerprint "fingerprint contains no items"
       = Wrap e0 "decoding failed"))) /\
  ("AQAAA"%string <> ""%string /\
   RawURLEncoding_DecodeString "AQAAA" = ([x01; x00; x00], Some (CorruptInputError 4)) /\
   ParseFingerprintString unpackInt3Array unpackInt5Array RawURLEncoding_DecodeString
                          "AQAAA"
   = Returns (None, Some (Wrap (CorruptInputError 4) "decoding failed")) /\
   Cause (Wrap (CorruptInputError 4) "decoding failed") = Cause (CorruptInputError 4)).
Proof.
  assert (H1 : ParseFingerprint unpackInt3Array unpackInt5Array [x01; x00; x00]
               = Returns (None, Some (Wrap ErrInvalidFingerprint
                                           "encoded fingerprint is less than 4 bytes")))
    by reflexivity.
  assert (H2 : ParseFingerprintString unpackInt3Array unpackInt5Array
                                      RawURLEncoding_DecodeString "AQAAAA"
               = Returns (None, Some (Wrap ErrInvalidFingerprint
                                           "fingerprint contains no items")))
    by reflexivity.
  assert (H3 : "AQAAA"%string <> ""%string) by discriminate.
  assert (H4 : RawURLEncoding_DecodeString "AQAAA"
               = ([x01; x00; x00], Some (CorruptInputError 4)))
    by reflexivity.
  split; [| split].
  - split; [exact H1 |].
    exact (proj2 (proj1 (decode_failure_kinds unpackInt3Array unpackInt5Array
                                              RawURLEncoding_DecodeString) _ _ _ H1)).
  - split; [exact H2 |].
    exact (proj2 (proj1 (proj2 (proj2 (proj2 (proj2 (proj2 (proj2 (proj2
             (decode_failure_kinds unpackInt3Array unpackInt5Array
                                   RawURLEncoding_DecodeString)))))))) _ _ _ H2)).
  - split; [exact H3 |]. split; [exact H4 |].
    exact (proj1 (proj2 (proj2 (proj2 (proj2
             (decode_failure_kinds unpackInt3Array unpackInt5Array
                                   RawURLEncoding_DecodeString))))) _ _ _ H3 H4).
Defined.

(** C8 (as stated) fails: on the text "!" the error is the
    CorruptInputError of the base64 decoder, wrapped by
    ParseFingerprintString; its kind is not InvalidFingerprint. *)
Lemma malformed_text_not_InvalidFingerprint :
  DecodeFingerprintString RawURLEncoding_DecodeString "!"
  = ([], Some (CorruptInputError 0)) /\
  ParseFingerprintString unpackInt3Array unpackInt5Array RawURLEncoding_DecodeString "!"
  = Returns (None, Some (Wrap (CorruptInputError 0) "decoding failed")) /\
  Cause (Wrap (CorruptInputError 0) "decoding failed") <> ErrInvalidFingerprint.
Proof.
  split; [reflexivity |]. split; [reflexivity |]. discriminate.
Qed.

(** The same seven bytes with any 3-bit helper that finds eight codes in
    the three code bytes, the first one 7 and only the last one zero (the
    bits of FF FF 18 read from either end give such codes). *)
Lemma unpackFingerprint_offset_overrun :
  forall unpackInt3Array unpackInt5Array c1 c2 c3 c4 c5 c6 fp,
    unpackInt3Array [xff; xff; x18] = [7; c1; c2; c3; c4; c5; c6; 0] ->
    c1 <> 0 -> c2 <> 0 -> c3 <> 0 -> c4 <> 0 -> c5 <> 0 -> c6 <> 0 ->
    unpackFingerprint unpackInt3Array unpackInt5Array
                      [x01; x00; x00; x01; xff; xff; x18] fp = Panics.
Proof.
  intros u3 u5 c1 c2 c3 c4 c5 c6 fp Hcodes H1 H2 H3 H4 H5 H6.
  unfold unpackFingerprint.
  change (length [x01; x00; x00; x01; xff; xff; x18] <? 4)%nat with false.
  change (BigEndian_Uint32 [x01; x00; x00; x01; xff; xff; x18])
    with (Returns 16777217).
  cbn [bind].
  change (Z.land 16777217 16777215) with 1.
  change (1 =? 0) with false.
  change (slice_from [x01; x00; x00; x01; xff; xff; x18] 4)
    with (Returns [xff; xff; x18]).
  cbn [bind]. rewrite Hcodes. cbn [scanBits].
  change (7 =? 0) with false. change (7 =? 7) with true. cbv iota.
  apply Z.eqb_neq in H1, H2, H3, H4, H5, H6.
  rewrite H1, H2, H3, H4, H5, H6.
  change (0 =? 0) with true. change (0 + 1 =? 1) with true. cbv iota.
  destruct (c1 =? 7), (c2 =? 7), (c3 =? 7), (c4 =? 7), (c5 =? 7), (c6 =? 7);
    reflexivity.
Qed.

(** C10. Seven bytes: a header announcing one value, then three bytes that
    hold eight codes, the last one the only zero, five of them 7.  The
    offset of the exceptional codes is computed as 8, beyond the end of
    the data, and both entry points panic on [data[offset:]]. *)
Theorem unpackFingerprint_slices_beyond_data :
  let data := [x01; x00; x00; x01; xff; xff; x18] in
  unpackInt3Array (skipn 4 data) = [7; 7; 7; 7; 7; 4; 3; 0] /\
  slice_from data (4 + (8 * 3 + 8) / 8) = Panics /\
  ParseFingerprint unpackInt3Array unpackInt5Array data = Panics /\
  ValidateFingerprint unpackInt3Array unpackInt5Array data = Panics.
Proof.
  repeat split.
Qed.

End CodecModel.

(** * More facts about package index *)

Section BufferFacts.
Import index.

Lemma rescan_bounds :
  forall its mn0 mx0 mn mx,
    rescan its mn0 mx0 = (mn, mx) ->
    mn <= mn0 /\ mx0 <= mx /\ Forall (fun it => mn <= DocID it <= mx) its.
Proof.
  unfold rescan.
  induction its as [| it its IH]; intros mn0 mx0 mn mx H; simpl in H.
  - inversion H; subst. repeat split; try lia. constructor.
  - apply IH in H. destruct H as [Hmn [Hmx Hall]].
    destruct (DocID it <? mn0) eqn:E1; destruct (mx0 <? DocID it) eqn:E2;
      rewrite ?Z.ltb_lt, ?Z.ltb_ge in E1, E2;
      repeat split; try lia; constructor; auto; lia.
Qed.

Lemma rescan_attained :
  forall its mn0 mx0 mn mx,
    rescan its mn0 mx0 = (mn, mx) ->
    (mn = mn0 \/ exists it, In it its /\ DocID it = mn) /\
    (mx = mx0 \/ exists it, In it its /\ DocID it = mx).
Proof.
  unfold rescan.
  induction its as [| it its IH]; intros mn0 mx0 mn mx H; simpl in H.
  - inversion H; subst. auto.
  - apply IH in H. destruct H as [[Hmn | [x [Hx Hmn]]] [Hmx | [y [Hy Hmx]]]];
      (split; [try (right; exists x; simpl; now auto) | try (right; exists y; simpl; now auto)]).
    all: try (destruct (DocID it <? mn0); [right; exists it; simpl; auto | left; exact Hmn]).
    all: try (destruct (mx0 <? DocID it); [right; exists it; simpl; auto | left; exact Hmx]).
Qed.

Lemma docIDs_nil its : docIDs its = [] -> its = [].
Proof.
  destruct its as [| it its]; [reflexivity |]. intros H.
  assert (Hin : In (DocID it) (docIDs (it :: its)))
    by (unfold docIDs; rewrite nodup_In; simpl; auto).
  rewrite H in Hin. destruct Hin.
Qed.

Lemma filter_all {A} (f : A -> bool) (l : list A) :
  Forall (fun x => f x = true) l -> filter f l = l.
Proof.
  induction 1 as [| x l Hx _ IH]; simpl; [reflexivity |]. now rewrite Hx, IH.
Qed.

Lemma filter_length_eq {A} (f : A -> bool) (l : list A) :
  length (filter f l) = length l -> filter f l = l.
Proof.
  induction l as [| x l IH]; simpl; intros H; [reflexivity |].
  destruct (f x); simpl in H.
  - f_equal. apply IH. lia.
  - pose proof (filter_length_le f l). lia.
Qed.

(** Every posting of a reachable buffer has its docID inside the bounds,
    and within [uint32]. *)
Lemma run_bounds ops :
  Forall wf_op ops ->
  Z.of_nat (length ops) < 2 ^ 63 ->
  Forall (fun it => minDocID (run ops) <= DocID it <= maxDocID (run ops) /\
                    is_uint32 (DocID it))
         (items (run ops)).
Proof.
  induction ops as [| o ops IH] using rev_ind; intros Hwf Hlen.
  - constructor.
  - apply Forall_app in Hwf. destruct Hwf as [Hwf Ho].
    inversion Ho as [| ? ? Hwo _]; subst. clear Ho.
    pose proof (run_invariant (ops ++ [o]) Hlen) as Hnew.
    rewrite length_app in Hlen. simpl length in Hlen.
    assert (Hops : Z.of_nat (length ops) < 2 ^ 63) by lia.
    specialize (IH Hwf Hops).
    pose proof (run_invariant ops Hops) as Hold.
    rewrite run_snoc in *.
    destruct o as [docID terms | docID]; simpl in *.
    + destruct Hwo as [Hd _]. unfold Add in *. simpl in *.
      rewrite wrap_int_small in * by lia.
      apply Forall_app. split.
      * destruct (numDocs (run ops) + 1 =? 1) eqn:E1.
        -- apply Z.eqb_eq in E1.
           assert (Hnil : items (run ops) = []).
           { apply docIDs_nil. destruct (docIDs (items (run ops))); [reflexivity |].
             simpl in Hold. lia. }
           rewrite Hnil. constructor.
        -- simpl. eapply Forall_impl; [| exact IH]. simpl.
           intros it [Hb Hu]. split; [| exact Hu].
           destruct (docID <? minDocID (run ops)) eqn:E2;
             destruct (maxDocID (run ops) <? docID) eqn:E3;
             rewrite ?Z.ltb_lt, ?Z.ltb_ge in E2, E3; lia.
      * apply Forall_map. apply Forall_forall. intros t _. simpl.
        split; [| exact Hd].
        destruct (numDocs (run ops) + 1 =? 1); simpl; [lia |].
        destruct (docID <? minDocID (run ops)) eqn:E2;
          destruct (maxDocID (run ops) <? docID) eqn:E3;
          rewrite ?Z.ltb_lt, ?Z.ltb_ge in E2, E3; lia.
    + unfold Delete in *.
      destruct ((docID <? minDocID (run ops)) || (maxDocID (run ops) <? docID));
        [exact IH |].
      destruct (length (filter _ _) =? length _)%nat; [exact IH |].
      assert (Hkept : Forall (fun it => minDocID (run ops) <= DocID it <= maxDocID (run ops) /\
                                        is_uint32 (DocID it))
                             (filter (fun item => negb (DocID item =? docID))
                                     (items (run ops)))).
      { apply Forall_forall. intros it Hin. apply filter_In in Hin.
        rewrite Forall_forall in IH. apply IH. tauto. }
      destruct ((docID =? minDocID (run ops)) || (docID =? maxDocID (run ops))).
      * destruct (0 <? wrap_int (numDocs (run ops) - 1)) eqn:Epos.
        -- destruct (rescan _ _ _) as [mn mx] eqn:Er. simpl in *.
           apply rescan_bounds in Er. destruct Er as [_ [_ Hall]].
           rewrite Forall_forall in *. intros it Hin. split; [now apply Hall |].
           now apply Hkept.
        -- simpl in *. apply Z.ltb_ge in Epos.
           assert (Hnil : filter (fun item => negb (DocID item =? docID))
                                 (items (run ops)) = []).
           { apply docIDs_nil. destruct (docIDs (filter _ _)); [reflexivity |].
             simpl in Hnew. lia. }
           rewrite Hnil. constructor.
      * simpl. exact Hkept.
Qed.


Lemma filter_drops {A} (f : A -> bool) (l : list A) :
  length (filter f l) <> length l -> exists x, In x l /\ f x = false.
Proof.
  induction l as [| x l IH]; simpl; intros H; [now elim H |].
  destruct (f x) eqn:Fx.
  - destruct IH as [y [Hy Fy]]; [simpl in H; lia |]. exists y. auto.
  - exists x. auto.
Qed.

Ltac wf_history := repeat constructor; unfold is_uint32, MaxUint32; lia.

(** X1. Delete on a reachable buffer: it returns true exactly when some
    posting carries the docID; the postings left are the others, in their
    order; when it returns false the buffer is unchanged, and when it
    returns true NumDocs has gone down by one. *)
Theorem Delete_removes_the_document :
  forall ops docID,
    Forall wf_op ops ->
    Z.of_nat (length ops) < 2 ^ 63 ->
    (fst (Delete (run ops) docID) = true <->
     exists it, In it (items (run ops)) /\ DocID it = docID) /\
    items (snd (Delete (run ops) docID)) = filter (otherDoc docID) (items (run ops)) /\
    (fst (Delete (run ops) docID) = false -> snd (Delete (run ops) docID) = run ops) /\
    (fst (Delete (run ops) docID) = true ->
     NumDocs (snd (Delete (run ops) docID)) = NumDocs (run ops) - 1).
Proof.
  intros ops docID Hwf Hlen.
  pose proof (run_bounds ops Hwf Hlen) as Hb.
  pose proof (run_invariant ops Hlen) as Hinv.
  unfold Delete, otherDoc, NumDocs.
  set (ib := run ops) in *.
  set (f := fun item => negb (DocID item =? docID)).
  destruct ((docID <? minDocID ib) || (maxDocID ib <? docID)) eqn:Erange.
  - simpl.
    assert (Hall : Forall (fun it => f it = true) (items ib)).
    { eapply Forall_impl; [| exact Hb]. intros it [Hit _]. unfold f.
      apply negb_true_iff, Z.eqb_neq.
      apply orb_true_iff in Erange. rewrite !Z.ltb_lt in Erange. lia. }
    split; [| split; [now rewrite filter_all | split; [reflexivity | discriminate]]].
    split; [discriminate |]. intros [it [Hin Hd]].
    rewrite Forall_forall in Hall. apply Hall in Hin. unfold f in Hin.
    apply negb_true_iff, Z.eqb_neq in Hin. lia.
  - destruct (length (filter f (items ib)) =? length (items ib))%nat eqn:Elen.
    + apply Nat.eqb_eq in Elen. apply filter_length_eq in Elen. simpl.
      split; [| split; [now rewrite Elen | split; [reflexivity | discriminate]]].
      split; [discriminate |]. intros [it [Hin Hd]].
      rewrite <- Elen in Hin. apply filter_In in Hin. destruct Hin as [_ Hin].
      unfold f in Hin. apply negb_true_iff, Z.eqb_neq in Hin. lia.
    + apply Nat.eqb_neq in Elen.
      assert (Hsome : exists it, In it (items ib) /\ DocID it = docID).
      { destruct (filter_drops _ _ Elen) as [it [Hin Fit]]. exists it. split; auto.
        unfold f in Fit. now apply negb_false_iff, Z.eqb_eq in Fit. }
      pose proof (docIDs_Delete _ _ Elen) as Hdocs. fold f in Hdocs.
      assert (Hn : wrap_int (numDocs ib - 1) = numDocs ib - 1)
        by (apply wrap_int_small; lia).
      destruct ((docID =? minDocID ib) || (docID =? maxDocID ib)).
      * destruct (0 <? wrap_int (numDocs ib - 1)).
        -- destruct (rescan _ _ _) as [mn mx]. simpl.
           repeat split; auto; discriminate.
        -- simpl. repeat split; auto; discriminate.
      * simpl. repeat split; auto; discriminate.
Qed.

Lemma Delete_removes_the_document_witness :
  Forall wf_op [OpAdd 10 [1; 2]; OpAdd 20 [2; 3]] /\
  Z.of_nat (length [OpAdd 10 [1; 2]; OpAdd 20 [2; 3]]) < 2 ^ 63 /\
  items (snd (Delete (run [OpAdd 10 [1; 2]; OpAdd 20 [2; 3]]) 10))
  = filter (otherDoc 10) (items (run [OpAdd 10 [1; 2]; OpAdd 20 [2; 3]])).
Proof.
  assert (Hwf : Forall wf_op [OpAdd 10 [1; 2]; OpAdd 20 [2; 3]]) by wf_history.
  assert (Hlen : Z.of_nat (length [OpAdd 10 [1; 2]; OpAdd 20 [2; 3]]) < 2 ^ 63)
    by reflexivity.
  split; [exact Hwf |]. split; [exact Hlen |].
  exact (proj1 (proj2 (Delete_removes_the_document _ 10 Hwf Hlen))).
Defined.

(** X2. Invariants of a reachable buffer: the docID of every posting lies
    between MinDocID and MaxDocID, so MinDocID <= MaxDocID as soon as the
    buffer holds a posting; and NumDocs is at least the number of distinct
    docIDs among the postings and at most the number of operations. *)
Theorem reachable_buffer_invariants :
  forall ops,
    Forall wf_op ops ->
    Z.of_nat (length ops) < 2 ^ 63 ->
    Forall (fun it => MinDocID (run ops) <= DocID it <= MaxDocID (run ops))
           (items (run ops)) /\
    (Empty (run ops) = false -> MinDocID (run ops) <= MaxDocID (run ops)) /\
    Z.of_nat (length (docIDs (items (run ops)))) <= NumDocs (run ops)
    <= Z.of_nat (length ops).
Proof.
  intros ops Hwf Hlen.
  assert (Hb : Forall (fun it => MinDocID (run ops) <= DocID it <= MaxDocID (run ops))
                      (items (run ops))).
  { eapply Forall_impl; [| exact (run_bounds ops Hwf Hlen)].
    intros it [H _]. exact H. }
  split; [exact Hb |]. split; [| exact (run_invariant ops Hlen)].
  unfold Empty. intros Hne.
  destruct (items (run ops)) as [| it its]; [discriminate Hne |].
  inversion Hb; subst. lia.
Qed.

Lemma reachable_buffer_invariants_witness :
  Forall wf_op [OpAdd 10 [1; 2]; OpAdd 20 [2; 3]; OpDelete 10] /\
  Z.of_nat (length [OpAdd 10 [1; 2]; OpAdd 20 [2; 3]; OpDelete 10]) < 2 ^ 63 /\
  Forall (fun it =>
            MinDocID (run [OpAdd 10 [1; 2]; OpAdd 20 [2; 3]; OpDelete 10]) <= DocID it
            <= MaxDocID (run [OpAdd 10 [1; 2]; OpAdd 20 [2; 3]; OpDelete 10]))
         (items (run [OpAdd 10 [1; 2]; OpAdd 20 [2; 3]; OpDelete 10])).
Proof.
  assert (Hwf : Forall wf_op [OpAdd 10 [1; 2]; OpAdd 20 [2; 3]; OpDelete 10])
    by wf_history.
  assert (Hlen : Z.of_nat (length [OpAdd 10 [1; 2]; OpAdd 20 [2; 3]; OpDelete 10]) < 2 ^ 63)
    by reflexivity.
  split; [exact Hwf |]. split; [exact Hlen |].
  exact (proj1 (reachable_buffer_invariants _ Hwf Hlen)).
Defined.

(** X3. Delete of the document at one of the bounds of a reachable buffer:
    if postings remain, the new MinDocID and MaxDocID are the smallest and
    the largest docID among them. *)
Theorem Delete_recomputes_bounds :
  forall ops docID,
    Forall wf_op ops ->
    Z.of_nat (length ops) < 2 ^ 63 ->
    fst (Delete (run ops) docID) = true ->
    docID = MinDocID (run ops) \/ docID = MaxDocID (run ops) ->
    items (snd (Delete (run ops) docID)) <> [] ->
    (exists it, In it (items (snd (Delete (run ops) docID))) /\
                DocID it = MinDocID (snd (Delete (run ops) docID))) /\
    (exists it, In it (items (snd (Delete (run ops) docID))) /\
                DocID it = MaxDocID (snd (Delete (run ops) docID))) /\
    Forall (fun it => MinDocID (snd (Delete (run ops) docID)) <= DocID it
                      <= MaxDocID (snd (Delete (run ops) docID)))
           (items (snd (Delete (run ops) docID))).
Proof.
  intros ops docID Hwf Hlen.
  pose proof (run_bounds ops Hwf Hlen) as Hb.
  pose proof (run_invariant ops Hlen) as Hinv.
  unfold Delete, MinDocID, MaxDocID.
  set (ib := run ops) in *.
  set (f := fun item => negb (DocID item =? docID)).
  destruct ((docID <? minDocID ib) || (maxDocID ib <? docID)); [discriminate |].
  destruct (length (filter f (items ib)) =? length (items ib))%nat eqn:Elen;
    [discriminate |].
  apply Nat.eqb_neq in Elen.
  pose proof (docIDs_Delete _ _ Elen) as Hdocs. fold f in Hdocs.
  intros _ Hat.
  assert (Hor : (docID =? minDocID ib) || (docID =? maxDocID ib) = true).
  { apply orb_true_iff. rewrite !Z.eqb_eq. exact Hat. }
  rewrite Hor.
  destruct (0 <? wrap_int (numDocs ib - 1)) eqn:Epos.
  - destruct (rescan (filter f (items ib)) MaxUint32 0) as [mn mx] eqn:Er. simpl.
    intros Hne.
    pose proof (rescan_bounds _ _ _ _ _ Er) as [_ [_ Hall]].
    pose proof (rescan_attained _ _ _ _ _ Er) as [Hmn Hmx].
    assert (Hu : Forall (fun it => is_uint32 (DocID it)) (filter f (items ib))).
    { apply Forall_forall. intros it Hin. apply filter_In in Hin.
      rewrite Forall_forall in Hb. apply Hb. tauto. }
    destruct (filter f (items ib)) as [| it0 rest] eqn:Ef; [now elim Hne |].
    assert (H0 : mn <= DocID it0 <= mx) by (inversion Hall; assumption).
    assert (U0 : is_uint32 (DocID it0)) by (inversion Hu; assumption).
    unfold is_uint32 in U0.
    split; [| split; [| exact Hall]].
    + destruct Hmn as [-> | Hmn]; [| exact Hmn].
      exists it0. split; [now left | lia].
    + destruct Hmx as [-> | Hmx]; [| exact Hmx].
      exists it0. split; [now left | lia].
  - simpl. intros Hne. exfalso. apply Z.ltb_ge in Epos.
    destruct (filter f (items ib)) as [| it0 rest] eqn:Ef; [now elim Hne |].
    assert (Hin : In (DocID it0) (docIDs (it0 :: rest)))
      by (unfold docIDs; rewrite nodup_In; simpl; auto).
    destruct (docIDs (it0 :: rest)) as [| d ds]; [destruct Hin |].
    simpl length in Hdocs.
    rewrite wrap_int_small in Epos; lia.
Qed.

Lemma Delete_recomputes_bounds_witness :
  Forall wf_op [OpAdd 10 [1; 2]; OpAdd 20 [2; 3]; OpAdd 30 [5]] /\
  Z.of_nat (length [OpAdd 10 [1; 2]; OpAdd 20 [2; 3]; OpAdd 30 [5]]) < 2 ^ 63 /\
  fst (Delete (run [OpAdd 10 [1; 2]; OpAdd 20 [2; 3]; OpAdd 30 [5]]) 30) = true /\
  (30 = MinDocID (run [OpAdd 10 [1; 2]; OpAdd 20 [2; 3]; OpAdd 30 [5]]) \/
   30 = MaxDocID (run [OpAdd 10 [1; 2]; OpAdd 20 [2; 3]; OpAdd 30 [5]])) /\
  items (snd (Delete (run [OpAdd 10 [1; 2]; OpAdd 20 [2; 3]; OpAdd 30 [5]]) 30)) <> [] /\
  exists it,
    In it (items (snd (Delete (run [OpAdd 10 [1; 2]; OpAdd 20 [2; 3]; OpAdd 30 [5]]) 30))) /\
    DocID it
    = MaxDocID (snd (Delete (run [OpAdd 10 [1; 2]; OpAdd 20 [2; 3]; OpAdd 30 [5]]) 30)).
Proof.
  assert (Hwf : Forall wf_op [OpAdd 10 [1; 2]; OpAdd 20 [2; 3]; OpAdd 30 [5]])
    by wf_history.
  assert (Hlen : Z.of_nat (length [OpAdd 10 [1; 2]; OpAdd 20 [2; 3]; OpAdd 30 [5]]) < 2 ^ 63)
    by reflexivity.
  assert (Hdel : fst (Delete (run [OpAdd 10 [1; 2]; OpAdd 20 [2; 3]; OpAdd 30 [5]]) 30)
                 = true) by reflexivity.
  assert (Hat : 30 = MinDocID (run [OpAdd 10 [1; 2]; OpAdd 20 [2; 3]; OpAdd 30 [5]]) \/
                30 = MaxDocID (run [OpAdd 10 [1; 2]; OpAdd 20 [2; 3]; OpAdd 30 [5]]))
    by (right; reflexivity).
  assert (Hne : items (snd (Delete (run [OpAdd 10 [1; 2]; OpAdd 20 [2; 3]; OpAdd 30 [5]]) 30))
                <> []) by discriminate.
  split; [exact Hwf |]. split; [exact Hlen |]. split; [exact Hdel |].
  split; [exact Hat |]. split; [exact Hne |].
  exact (proj1 (proj2 (Delete_recomputes_bounds _ 30 Hwf Hlen Hdel Hat Hne))).
Defined.

(** X4. For any buffer: once Delete has removed a document, deleting the
    same docID again returns false and changes nothing. *)
Theorem Delete_again_is_rejected :
  forall ib docID,
    fst (Delete ib docID) = true ->
    Delete (snd (Delete ib docID)) docID = (false, snd (Delete ib docID)).
Proof.
  intros ib docID H.
  assert (Hitems : items (snd (Delete ib docID))
                   = filter (fun item => negb (DocID item =? docID)) (items ib)).
  { unfold Delete in *.
    destruct ((docID <? minDocID ib) || (maxDocID ib <? docID)); [discriminate H |].
    destruct (length (filter _ _) =? length _)%nat; [discriminate H |].
    destruct ((docID =? minDocID ib) || (docID =? maxDocID ib)); [| reflexivity].
    destruct (0 <? wrap_int (numDocs ib - 1)); [| reflexivity].
    now destruct (rescan _ _ _). }
  set (ib' := snd (Delete ib docID)) in *.
  unfold Delete at 1.
  destruct ((docID <? minDocID ib') || (maxDocID ib' <? docID)); [reflexivity |].
  rewrite Hitems.
  assert (Hff : forall l : list Item,
             filter (fun item => negb (DocID item =? docID))
                    (filter (fun item => negb (DocID item =? docID)) l)
             = filter (fun item => negb (DocID item =? docID)) l).
  { intros l. apply filter_all. apply Forall_forall. intros it Hin.
    apply filter_In in Hin. tauto. }
  rewrite Hff, Nat.eqb_refl. reflexivity.
Qed.

Lemma Delete_again_is_rejected_witness :
  fst (Delete (run [OpAdd 10 [1; 2]; OpAdd 20 [2; 3]]) 20) = true /\
  Delete (snd (Delete (run [OpAdd 10 [1; 2]; OpAdd 20 [2; 3]]) 20)) 20
  = (false, snd (Delete (run [OpAdd 10 [1; 2]; OpAdd 20 [2; 3]]) 20)).
Proof.
  split; [reflexivity |].
  apply (Delete_again_is_rejected (run [OpAdd 10 [1; 2]; OpAdd 20 [2; 3]]) 20).
  reflexivity.
Defined.

End BufferFacts.

Section ReaderFacts.
Import index.

Lemma lexLe_antisym a b : lexLe a b -> lexLe b a -> a = b.
Proof.
  unfold lexLe. destruct a as [ta da], b as [tb db]. simpl.
  intros H1 H2. assert (ta = tb) by lia. assert (da = db) by lia. now subst.
Qed.

Lemma lexLe_refl a : lexLe a a.
Proof. unfold lexLe. lia. Qed.

Lemma lexSorted_unique :
  forall l1 l2, lexSorted l1 -> lexSorted l2 -> Permutation l1 l2 -> l1 = l2.
Proof.
  unfold lexSorted.
  induction l1 as [| a t1 IH]; intros l2 H1 H2 Hp.
  - apply Permutation_nil in Hp. now subst.
  - destruct l2 as [| b t2]; [apply Permutation_sym, Permutation_nil in Hp; discriminate |].
    inversion H1 as [| ? ? Hs1 Hf1]; subst. inversion H2 as [| ? ? Hs2 Hf2]; subst.
    assert (Hab : a = b).
    { apply lexLe_antisym.
      - assert (Hin : In b (a :: t1))
          by (eapply Permutation_in; [symmetry; exact Hp | now left]).
        destruct Hin as [-> | Hin]; [apply lexLe_refl |].
        rewrite Forall_forall in Hf1. now apply Hf1.
      - assert (Hin : In a (b :: t2))
          by (eapply Permutation_in; [exact Hp | now left]).
        destruct Hin as [-> | Hin]; [apply lexLe_refl |].
        rewrite Forall_forall in Hf2. now apply Hf2. }
    subst b. f_equal. apply IH; auto. now apply Permutation_cons_inv in Hp.
Qed.

Lemma ReadAllItems_buffer ib :
  ReadAllItems 2 (itemBufferReader ib 0) = Some (Returns (items ib, None)).
Proof.
  unfold ReadAllItems. simpl.
  destruct (items ib) as [| it its] eqn:E; simpl; [reflexivity |].
  rewrite E. simpl. rewrite Nat.leb_refl. now rewrite app_nil_r.
Qed.

(** X5. What Reader() delivers depends only on the postings held, not on
    the order in which they were added: two buffers holding the same
    postings drain to the same sequence, the postings in (term, docID)
    order; sort.Slice is any function that sorts. *)
Theorem Reader_order_is_canonical :
  forall sort_Slice,
    sorts sort_Slice ->
    forall ib1 ib2,
      Permutation (items ib1) (items ib2) ->
      exists out,
        ReadAllItems 2 (snd (Reader sort_Slice ib1)) = Some (Returns (out, None)) /\
        ReadAllItems 2 (snd (Reader sort_Slice ib2)) = Some (Returns (out, None)) /\
        lexSorted out /\
        Permutation out (items ib1).
Proof.
  intros sort_Slice Hsort ib1 ib2 Hp.
  destruct (Hsort (items ib1)) as [Hp1 Hs1].
  destruct (Hsort (items ib2)) as [Hp2 Hs2].
  apply Sorted_lexSorted in Hs1. apply Sorted_lexSorted in Hs2.
  exists (sort_Slice itemLess (items ib1)).
  unfold Reader. simpl snd. rewrite !ReadAllItems_buffer. simpl items.
  split; [reflexivity |]. split; [| split; [exact Hs1 | exact Hp1]].
  do 3 f_equal. apply lexSorted_unique; auto.
  rewrite Hp2, Hp1. now symmetry.
Qed.

Lemma Reader_order_is_canonical_witness :
  sorts insertionSort /\
  Permutation (items (run [OpAdd 10 [1; 2]; OpAdd 20 [2; 3]]))
              (items (run [OpAdd 20 [2; 3]; OpAdd 10 [1; 2]])) /\
  exists out,
    ReadAllItems 2 (snd (Reader insertionSort (run [OpAdd 10 [1; 2]; OpAdd 20 [2; 3]])))
    = Some (Returns (out, None)) /\
    ReadAllItems 2 (snd (Reader insertionSort (run [OpAdd 20 [2; 3]; OpAdd 10 [1; 2]])))
    = Some (Returns (out, None)) /\
    lexSorted out /\
    Permutation out (items (run [OpAdd 10 [1; 2]; OpAdd 20 [2; 3]])).
Proof.
  assert (Hp : Permutation (items (run [OpAdd 10 [1; 2]; OpAdd 20 [2; 3]]))
                           (items (run [OpAdd 20 [2; 3]; OpAdd 10 [1; 2]]))).
  { simpl. apply (Permutation_app_comm [_; _] [_; _]). }
  split; [exact insertionSort_sorts |]. split; [exact Hp |].
  exact (Reader_order_is_canonical insertionSort insertionSort_sorts _ _ Hp).
Defined.

(** X6. ReadAllItems over any reader, given by the results of its
    successive ReadBlock calls: it returns the blocks up to and including
    the first one that comes with an error; the error returned is nil for
    end-of-stream and that error otherwise, so after a failure the items
    read so far are returned with it. *)
Theorem ReadAllItems_stops_at_first_error :
  forall script fuel,
    (length script < fuel)%nat ->
    ReadAllItems fuel (scriptedReader script)
    = Some (Returns (scriptItems script, scriptError script)).
Proof.
  unfold ReadAllItems.
  assert (H : forall script fuel acc,
             (length script < fuel)%nat ->
             ReadAllItems_loop fuel (scriptedReader script) acc
             = Some (Returns (acc ++ scriptItems script, scriptError script))).
  { induction script as [| [blk err] rest IH]; intros fuel acc Hlen;
      (destruct fuel as [| fuel]; [simpl in Hlen; lia |]).
    - reflexivity.
    - simpl. destruct err as [e |].
      + destruct e; reflexivity.
      + rewrite IH by (simpl in Hlen; lia). now rewrite app_assoc. }
  intros script fuel Hlen. now rewrite H.
Qed.

Lemma ReadAllItems_stops_at_first_error_witness :
  (length [([ {| Term := 1; DocID := 1 |} ], None : option error);
           ([ {| Term := 2; DocID := 1 |} ], Some (ReadError 7));
           ([ {| Term := 3; DocID := 1 |} ], None)] < 4)%nat /\
  ReadAllItems 4 (scriptedReader
                    [([ {| Term := 1; DocID := 1 |} ], None);
                     ([ {| Term := 2; DocID := 1 |} ], Some (ReadError 7));
                     ([ {| Term := 3; DocID := 1 |} ], None)])
  = Some (Returns ([ {| Term := 1; DocID := 1 |}; {| Term := 2; DocID := 1 |} ],
                   Some (ReadError 7))).
Proof.
  split; [simpl; lia |].
  apply (ReadAllItems_stops_at_first_error
           [([ {| Term := 1; DocID := 1 |} ], None);
            ([ {| Term := 2; DocID := 1 |} ], Some (ReadError 7));
            ([ {| Term := 3; DocID := 1 |} ], None)] 4).
  simpl. lia.
Defined.

End ReaderFacts.

Section MergeTreeFacts.
Import index.

(** X7. Once a tree of buffer readers and merge nodes has reported
    end-of-stream, with no items, it keeps doing so: reading past the end
    is harmless. *)
Theorem ReadBlock_end_of_stream_is_final :
  forall r blk r',
    steady r -> isNil r = false ->
    ReadBlock r = Returns (blk, Some EOF, r') ->
    blk = [] /\ ReadBlock r' = Returns ([], Some EOF, r').
Proof.
  intros r blk r' Hst Hn Hr.
  destruct r as [| ib pos | r1 r2 b1 b2 buf | script];
    [discriminate Hn | | | destruct Hst].
  - simpl in *. destruct (length (items ib) <=? pos)%nat eqn:E; [| discriminate Hr].
    inversion Hr; subst. simpl. now rewrite E.
  - destruct Hst as [Hs1 [Hs2 Hbuf]].
    destruct (refill_steady b1 r1 Hs1 (ReadBlock_steady r1 Hs1))
      as [b1' [r1' [E1 [Hs1' [Hp1 Hz1]]]]].
    destruct (refill_steady b2 r2 Hs2 (ReadBlock_steady r2 Hs2))
      as [b2' [r2' [E2 [Hs2' [Hp2 Hz2]]]]].
    assert (Hnil1 : b1' = [] -> isNil r1' = true).
    { intros ->. unfold refill in E1. destruct b1; simpl in E1; [| discriminate E1].
      destruct (isNil r1) eqn:N1; simpl in E1.
      - inversion E1; subst. exact N1.
      - destruct (ReadBlock_steady r1 Hs1 N1) as [[[blk1 err1] rd1] [R1 D1]].
        rewrite R1 in E1. simpl in E1.
        destruct D1 as [_ [[-> [Hne _]] | [-> [-> _]]]].
        + inversion E1; subst. now elim Hne.
        + inversion E1; subst. reflexivity. }
    assert (Hnil2 : b2' = [] -> isNil r2' = true).
    { intros ->. unfold refill in E2. destruct b2; simpl in E2; [| discriminate E2].
      destruct (isNil r2) eqn:N2; simpl in E2.
      - inversion E2; subst. exact N2.
      - destruct (ReadBlock_steady r2 Hs2 N2) as [[[blk2 err2] rd2] [R2 D2]].
        rewrite R2 in E2. simpl in E2.
        destruct D2 as [_ [[-> [Hne _]] | [-> [-> _]]]].
        + inversion E2; subst. now elim Hne.
        + inversion E2; subst. reflexivity. }
    simpl ReadBlock in Hr. rewrite E1 in Hr. simpl in Hr. rewrite E2 in Hr. simpl in Hr.
    destruct b1' as [| v1 t1]; destruct b2' as [| v2 t2].
    + inversion Hr; subst. split; [reflexivity |].
      specialize (Hnil1 eq_refl). specialize (Hnil2 eq_refl).
      destruct r1'; try discriminate Hnil1. destruct r2'; try discriminate Hnil2.
      reflexivity.
    + discriminate Hr.
    + discriminate Hr.
    + destruct (mergeLoop buf v1 t1 v2 t2) as [[out x1] x2]. discriminate Hr.
Qed.

Lemma ReadBlock_end_of_stream_is_final_witness :
  steady (MergeItemReaders [itemBufferReader emptyBuffer 0; itemBufferReader emptyBuffer 0]) /\
  isNil (MergeItemReaders [itemBufferReader emptyBuffer 0; itemBufferReader emptyBuffer 0])
  = false /\
  ReadBlock (MergeItemReaders [itemBufferReader emptyBuffer 0; itemBufferReader emptyBuffer 0])
  = Returns ([], Some EOF, multiItemReader nilReader nilReader [] [] 1024) /\
  ReadBlock (multiItemReader nilReader nilReader [] [] 1024)
  = Returns ([], Some EOF, multiItemReader nilReader nilReader [] [] 1024).
Proof.
  assert (Hst : steady (MergeItemReaders [itemBufferReader emptyBuffer 0;
                                          itemBufferReader emptyBuffer 0]))
    by (simp MergeItemReaders; simpl; repeat split; lia).
  assert (Hn : isNil (MergeItemReaders [itemBufferReader emptyBuffer 0;
                                        itemBufferReader emptyBuffer 0]) = false)
    by reflexivity.
  assert (Hr : ReadBlock (MergeItemReaders [itemBufferReader emptyBuffer 0;
                                            itemBufferReader emptyBuffer 0])
               = Returns ([], Some EOF, multiItemReader nilReader nilReader [] [] 1024))
    by reflexivity.
  split; [exact Hst |]. split; [exact Hn |]. split; [exact Hr |].
  exact (proj2 (ReadBlock_end_of_stream_is_final _ _ _ Hst Hn Hr)).
Defined.

Lemma mergeLoop_takes n :
  forall v1 t1 v2 t2 out b1 b2,
    mergeLoop n v1 t1 v2 t2 = (out, b1, b2) ->
    (length out <= n)%nat /\
    exists k1 k2,
      b1 = skipn k1 (v1 :: t1) /\
      b2 = skipn k2 (v2 :: t2) /\
      length out = (k1 + k2)%nat /\
      (k1 <= S (length t1))%nat /\ (k2 <= S (length t2))%nat /\
      Permutation out (firstn k1 (v1 :: t1) ++ firstn k2 (v2 :: t2)).
Proof.
  induction n as [| n IH]; intros v1 t1 v2 t2 out b1 b2 H; simpl in H.
  - inversion H; subst. split; [simpl; lia |]. exists 0%nat, 0%nat. simpl.
    repeat split; auto; lia.
  - destruct (takeLeft v1 v2).
    + destruct t1 as [| v1' t1'].
      * inversion H; subst. split; [simpl; lia |]. exists 1%nat, 0%nat. simpl.
        repeat split; auto; lia.
      * destruct (mergeLoop n v1' t1' v2 t2) as [[o x1] x2] eqn:E.
        inversion H; subst. apply IH in E.
        destruct E as [Hlen [k1 [k2 [-> [-> [Hk [Hk1 [Hk2 Hp]]]]]]]].
        split; [simpl; lia |]. exists (S k1), k2. simpl length in *.
        repeat split; auto; try lia.
        change (firstn (S k1) (v1 :: v1' :: t1')) with (v1 :: firstn k1 (v1' :: t1')).
        simpl app. now constructor.
    + destruct t2 as [| v2' t2'].
      * inversion H; subst. split; [simpl; lia |]. exists 0%nat, 1%nat. simpl.
        repeat split; auto; lia.
      * destruct (mergeLoop n v1 t1 v2' t2') as [[o x1] x2] eqn:E.
        inversion H; subst. apply IH in E.
        destruct E as [Hlen [k1 [k2 [-> [-> [Hk [Hk1 [Hk2 Hp]]]]]]]].
        split; [simpl; lia |]. exists k1, (S k2). simpl length in *.
        repeat split; auto; try lia.
        change (firstn (S k2) (v2 :: v2' :: t2')) with (v2 :: firstn k2 (v2' :: t2')).
        rewrite Hp. apply Permutation_middle.
Qed.

Lemma Interleave_Permutation l1 l2 l : Interleave l1 l2 l -> Permutation l (l1 ++ l2).
Proof.
  induction 1 as [| x l1 l2 l _ IH | x l1 l2 l _ IH]; simpl.
  - constructor.
  - now constructor.
  - rewrite IH. apply Permutation_middle.
Qed.

Lemma mergeLoop_interleaves n :
  forall v1 t1 v2 t2 out b1 b2,
    mergeLoop n v1 t1 v2 t2 = (out, b1, b2) ->
    exists k1 k2,
      b1 = skipn k1 (v1 :: t1) /\
      b2 = skipn k2 (v2 :: t2) /\
      length out = (k1 + k2)%nat /\
      Interleave (firstn k1 (v1 :: t1)) (firstn k2 (v2 :: t2)) out.
Proof.
  induction n as [| n IH]; intros v1 t1 v2 t2 out b1 b2 H; simpl in H.
  - inversion H; subst. exists 0%nat, 0%nat. simpl.
    repeat split; auto. apply Interleave_nil.
  - destruct (takeLeft v1 v2).
    + destruct t1 as [| v1' t1'].
      * inversion H; subst. exists 1%nat, 0%nat. simpl.
        repeat split; auto. apply Interleave_left, Interleave_nil.
      * destruct (mergeLoop n v1' t1' v2 t2) as [[o x1] x2] eqn:E.
        inversion H; subst. apply IH in E.
        destruct E as [k1 [k2 [-> [-> [Hk Hi]]]]].
        exists (S k1), k2.
        change (firstn (S k1) (v1 :: v1' :: t1')) with (v1 :: firstn k1 (v1' :: t1')).
        repeat split; auto; [simpl; lia | now apply Interleave_left].
    + destruct t2 as [| v2' t2'].
      * inversion H; subst. exists 0%nat, 1%nat. simpl.
        repeat split; auto. apply Interleave_right, Interleave_nil.
      * destruct (mergeLoop n v1 t1 v2' t2') as [[o x1] x2] eqn:E.
        inversion H; subst. apply IH in E.
        destruct E as [k1 [k2 [-> [-> [Hk Hi]]]]].
        exists k1, (S k2).
        change (firstn (S k2) (v2 :: v2' :: t2')) with (v2 :: firstn k2 (v2' :: t2')).
        repeat split; auto; [simpl; lia | now apply Interleave_right].
Qed.

(** X8. A merge node whose two pending blocks are both non-empty does not
    read its sources: ReadBlock returns, with no error, between 1 and
    len(buf) items, which are a front part of the left block and a front
    part of the right block interleaved, each in its own order, and
    keeps the rest of both blocks. *)
Theorem ReadBlock_merges_pending_blocks :
  forall reader1 reader2 v1 t1 v2 t2 buf,
    (0 < buf)%nat ->
    exists out k1 k2,
      ReadBlock (multiItemReader reader1 reader2 (v1 :: t1) (v2 :: t2) buf)
      = Returns (out, None,
                 multiItemReader reader1 reader2
                                 (skipn k1 (v1 :: t1)) (skipn k2 (v2 :: t2)) buf) /\
      (1 <= length out <= buf)%nat /\
      length out = (k1 + k2)%nat /\
      Permutation out (firstn k1 (v1 :: t1) ++ firstn k2 (v2 :: t2)) /\
      Interleave (firstn k1 (v1 :: t1)) (firstn k2 (v2 :: t2)) out.
Proof.
  intros reader1 reader2 v1 t1 v2 t2 buf Hbuf.
  destruct (mergeLoop buf v1 t1 v2 t2) as [[out b1] b2] eqn:E.
  pose proof (mergeLoop_progress _ _ _ _ _ _ _ _ Hbuf E) as Hne.
  pose proof (mergeLoop_takes _ _ _ _ _ _ _ _ E) as [Hlen _].
  pose proof (mergeLoop_interleaves _ _ _ _ _ _ _ _ E)
    as [k1 [k2 [-> [-> [Hk Hi]]]]].
  exists out, k1, k2.
  cbn [ReadBlock refill length Nat.eqb andb bind]. rewrite E.
  split; [reflexivity |].
  split; [| split; [exact Hk | split; [now apply Interleave_Permutation | exact Hi]]].
  destruct out; [now elim Hne | simpl in *; lia].
Qed.

Lemma ReadBlock_merges_pending_blocks_witness :
  (0 < 1024)%nat /\
  exists out k1 k2,
    ReadBlock (multiItemReader nilReader nilReader
                               ({| Term := 1; DocID := 1 |} :: [ {| Term := 4; DocID := 1 |} ])
                               ({| Term := 2; DocID := 2 |} :: []) 1024)
    = Returns (out, None,
               multiItemReader nilReader nilReader
                               (skipn k1 ({| Term := 1; DocID := 1 |}
                                            :: [ {| Term := 4; DocID := 1 |} ]))
                               (skipn k2 ({| Term := 2; DocID := 2 |} :: [])) 1024) /\
    (1 <= length out <= 1024)%nat /\
    length out = (k1 + k2)%nat /\
    Permutation out (firstn k1 ({| Term := 1; DocID := 1 |}
                                  :: [ {| Term := 4; DocID := 1 |} ])
                     ++ firstn k2 ({| Term := 2; DocID := 2 |} :: [])) /\
    Interleave (firstn k1 ({| Term := 1; DocID := 1 |}
                             :: [ {| Term := 4; DocID := 1 |} ]))
               (firstn k2 ({| Term := 2; DocID := 2 |} :: [])) out.
Proof.
  assert (Hbuf : (0 < 1024)%nat) by lia.
  split; [exact Hbuf |].
  exact (ReadBlock_merges_pending_blocks nilReader nilReader _ _ _ _ 1024 Hbuf).
Defined.

End MergeTreeFacts.

Section MergePrinciple.
Import index.

Lemma mergeTwo_pending r0 r1 :
  steady r0 -> steady r1 ->
  steady (mergeTwo r0 r1) /\
  pending (mergeTwo r0 r1) = tmerge (pending r0) (pending r1) /\
  isNil (mergeTwo r0 r1) = isNil r0 && isNil r1.
Proof.
  intros H0 H1. unfold mergeTwo.
  destruct (isNil r0) eqn:N0.
  - destruct r0; try discriminate N0. simpl. now rewrite tmerge_nil_l.
  - destruct (isNil r1) eqn:N1.
    + destruct r1; try discriminate N1. simpl. now rewrite tmerge_nil_r.
    + simpl. repeat split; auto. lia.
Qed.

(** Whatever holds of no input, of one input, and of the merge of two
    merged groups holds of the stream behind [MergeItemReaders]. *)
Lemma MergeItemReaders_fold (P : list (list Item) -> list Item -> Prop) :
  P [] [] ->
  (forall s, P [s] s) ->
  (forall l1 l2 o1 o2, P l1 o1 -> P l2 o2 -> P (l1 ++ l2) (tmerge o1 o2)) ->
  forall n readers,
    (length readers <= n)%nat ->
    Forall steady readers ->
    steady (MergeItemReaders readers) /\
    P (map pending readers) (pending (MergeItemReaders readers)) /\
    isNil (MergeItemReaders readers) = forallb isNil readers.
Proof.
  intros P0 P1 P2.
  induction n as [| n IH]; intros readers Hlen Hall.
  - destruct readers; [| simpl in Hlen; lia]. simp MergeItemReaders. simpl. auto.
  - destruct readers as [| r0 [| r1 [| r2 rest]]].
    + simp MergeItemReaders. simpl. auto.
    + simp MergeItemReaders. inversion Hall; subst. simpl.
      rewrite andb_true_r. auto.
    + simp MergeItemReaders.
      inversion Hall as [| ? ? S0 Hall']; subst.
      inversion Hall' as [| ? ? S1 _]; subst.
      destruct (mergeTwo_pending r0 r1 S0 S1) as [Hs [Hp Hn]].
      rewrite Hp, Hn. simpl. rewrite andb_true_r.
      repeat split; auto. apply (P2 [_] [_]); apply P1.
    + simp MergeItemReaders.
      set (readers := r0 :: r1 :: r2 :: rest) in *.
      set (mid := Nat.div (length readers) 2).
      assert (Hmid : (1 <= mid < length readers)%nat).
      { subst mid. split.
        - apply Nat.div_le_lower_bound; [lia | subst readers; simpl; lia].
        - apply Nat.div_lt; [subst readers; simpl; lia | lia]. }
      assert (Hsplit : readers = firstn mid readers ++ skipn mid readers)
        by (symmetry; apply firstn_skipn).
      assert (Hall2 := Hall). rewrite Hsplit in Hall2. apply Forall_app in Hall2.
      destruct Hall2 as [HallL HallR].
      destruct (IH (firstn mid readers)) as [SL [PL NL]]; auto.
      { rewrite length_firstn. lia. }
      destruct (IH (skipn mid readers)) as [SR [PR NR]]; auto.
      { rewrite length_skipn. lia. }
      cbv zeta. fold mid. simp MergeItemReaders.
      destruct (mergeTwo_pending _ _ SL SR) as [Hs [Hp Hn]].
      rewrite Hp, Hn, NL, NR. split; [exact Hs |]. split.
      * rewrite Hsplit at 1. rewrite map_app. now apply P2.
      * rewrite Hsplit at 3. now rewrite forallb_app.
Qed.

Lemma Subseq_refl l : Subseq l l.
Proof. induction l; [apply Subseq_nil | now apply Subseq_take]. Qed.

Lemma Subseq_nil_l l : Subseq [] l.
Proof. induction l; [apply Subseq_nil | now apply Subseq_skip]. Qed.

Lemma Subseq_trans s m l : Subseq s m -> Subseq m l -> Subseq s l.
Proof.
  intros H1 H2. revert s H1.
  induction H2 as [| x m l H2 IH | x m l H2 IH]; intros s H1.
  - exact H1.
  - apply Subseq_skip. now apply IH.
  - inversion H1; subst.
    + apply Subseq_skip. now apply IH.
    + apply Subseq_take. now apply IH.
Qed.

Lemma tmerge_Subseq l1 l2 : Subseq l1 (tmerge l1 l2) /\ Subseq l2 (tmerge l1 l2).
Proof.
  revert l2. induction l1 as [| v1 t1 IH1]; intros l2.
  - rewrite tmerge_nil_l. split; [apply Subseq_nil_l | apply Subseq_refl].
  - induction l2 as [| v2 t2 IH2].
    + rewrite tmerge_nil_r. split; [apply Subseq_refl | apply Subseq_nil_l].
    + rewrite tmerge_cons. destruct (takeLeft v1 v2).
      * destruct (IH1 (v2 :: t2)).
        split; [now apply Subseq_take | now apply Subseq_skip].
      * destruct IH2.
        split; [now apply Subseq_skip | now apply Subseq_take].
Qed.

Lemma buffer_readers_steady (ibs : list ItemBuffer) :
  Forall steady (map (fun ib => itemBufferReader ib 0) ibs) /\
  map pending (map (fun ib => itemBufferReader ib 0) ibs) = map items ibs /\
  (ibs <> [] -> forallb isNil (map (fun ib => itemBufferReader ib 0) ibs) = false).
Proof.
  split; [| split].
  - apply Forall_map. apply Forall_forall. intros; exact I.
  - rewrite map_map. apply map_ext. reflexivity.
  - destruct ibs; [intros H; now elim H | reflexivity].
Qed.

(** X9. The merge is stable: whatever the buffers hold, sorted or not, the
    drain of the merged reader ends with no error, and the postings of
    each input come out in the order they have in that input. *)
Theorem MergeItemReaders_keeps_input_order :
  forall ibs : list ItemBuffer,
    ibs <> [] ->
    exists out,
      (forall fuel,
          (length out < fuel)%nat ->
          ReadAllItems fuel (MergeItemReaders (map (fun ib => itemBufferReader ib 0) ibs))
          = Some (Returns (out, None))) /\
      Forall (fun ib => Subseq (items ib) out) ibs.
Proof.
  intros ibs Hne.
  destruct (buffer_readers_steady ibs) as [Hst [Hpend Hnn]].
  set (readers := map (fun ib => itemBufferReader ib 0) ibs) in *.
  destruct (MergeItemReaders_fold
              (fun l o => Forall (fun s => Subseq s o) l)) with (n := length readers)
                                                                (readers := readers)
    as [Hs [HP Hn]]; auto.
  - intros s. constructor; [apply Subseq_refl | constructor].
  - intros l1 l2 o1 o2 H1 H2. apply Forall_app. split.
    + eapply Forall_impl; [| exact H1]. intros s Hs.
      eapply Subseq_trans; [exact Hs | apply tmerge_Subseq].
    + eapply Forall_impl; [| exact H2]. intros s Hs.
      eapply Subseq_trans; [exact Hs | apply tmerge_Subseq].
  - exists (pending (MergeItemReaders readers)). split.
    + intros fuel Hfuel. unfold ReadAllItems.
      rewrite ReadAllItems_loop_steady; auto. rewrite Hn. now apply Hnn.
    + rewrite Hpend in HP. rewrite Forall_map in HP. exact HP.
Qed.

Lemma MergeItemReaders_keeps_input_order_witness :
  [run [OpAdd 20 [3; 1]]; run [OpAdd 10 [2]]; run [OpAdd 30 [1; 0]]] <> [] /\
  exists out,
    (forall fuel,
        (length out < fuel)%nat ->
        ReadAllItems fuel
          (MergeItemReaders
             (map (fun ib => itemBufferReader ib 0)
                  [run [OpAdd 20 [3; 1]]; run [OpAdd 10 [2]]; run [OpAdd 30 [1; 0]]]))
        = Some (Returns (out, None))) /\
    Forall (fun ib => Subseq (items ib) out)
           [run [OpAdd 20 [3; 1]]; run [OpAdd 10 [2]]; run [OpAdd 30 [1; 0]]].
Proof.
  assert (Hne : [run [OpAdd 20 [3; 1]]; run [OpAdd 10 [2]]; run [OpAdd 30 [1; 0]]] <> [])
    by discriminate.
  split; [exact Hne |].
  exact (MergeItemReaders_keeps_input_order _ Hne).
Defined.

Lemma ForallOrdPairs_app_inv {A} (R : A -> A -> Prop) (l1 l2 : list A) :
  ForallOrdPairs R (l1 ++ l2) ->
  ForallOrdPairs R l1 /\ ForallOrdPairs R l2 /\
  (forall a b, In a l1 -> In b l2 -> R a b).
Proof.
  induction l1 as [| x l1 IH]; simpl; intros H.
  - split; [constructor | split; [exact H | intros a b []]].
  - inversion H as [| ? ? Hx Hrest]; subst.
    destruct (IH Hrest) as [H1 [H2 H12]].
    rewrite Forall_app in Hx. destruct Hx as [Hx1 Hx2].
    split; [now constructor | split; [exact H2 |]].
    intros a b [-> | Ha] Hb.
    + rewrite Forall_forall in Hx2. now apply Hx2.
    + now apply H12.
Qed.

Lemma tmerge_lexSorted l1 l2 :
  lexSorted l1 -> lexSorted l2 -> leftBefore l1 l2 -> lexSorted (tmerge l1 l2).
Proof.
  unfold lexSorted. revert l2.
  induction l1 as [| v1 t1 IH1]; intros l2 H1 H2 Hlb.
  - now rewrite tmerge_nil_l.
  - induction l2 as [| v2 t2 IH2].
    + now rewrite tmerge_nil_r.
    + rewrite tmerge_cons.
      inversion H1 as [| ? ? Hs1 Hf1]; subst.
      inversion H2 as [| ? ? Hs2 Hf2]; subst.
      destruct (takeLeft v1 v2) eqn:E.
      * apply takeLeft_true in E.
        assert (Hle : lexLe v1 v2).
        { unfold lexLe. destruct (Z.eq_dec (Term v1) (Term v2)) as [Heq | Hneq].
          - right. split; [exact Heq |]. apply Hlb; simpl; auto.
          - left. lia. }
        constructor.
        -- apply IH1; auto. intros a b Ha Hb. apply Hlb; simpl; auto.
        -- eapply Permutation_Forall; [symmetry; apply tmerge_perm |].
           apply Forall_app. split; [exact Hf1 |].
           constructor; [exact Hle |].
           eapply Forall_impl; [| exact Hf2]. intros b Hb.
           eapply lexLe_trans; eauto.
      * apply takeLeft_false in E.
        assert (Hle : lexLe v2 v1) by (unfold lexLe; lia).
        constructor.
        -- apply IH2; auto. intros a b Ha Hb. apply Hlb; simpl; auto.
        -- eapply Permutation_Forall; [symmetry; apply tmerge_perm |].
           apply Forall_app. split; [| exact Hf2].
           constructor; [exact Hle |].
           eapply Forall_impl; [| exact Hf1]. intros b Hb.
           eapply lexLe_trans; eauto.
Qed.

(** X10. The merge of at least one buffer is right when the inputs come
    in docID order: for a non-empty list of buffers, if the buffers are
    sorted and, wherever an earlier and a later buffer of the list share
    a term, the docIDs of the earlier do not exceed those of the later,
    then the drain of the merged reader is the sorted concatenation of
    the inputs, in (term, docID) order. *)
Theorem MergeItemReaders_sorted_for_ordered_inputs :
  forall ibs : list ItemBuffer,
    ibs <> [] ->
    Forall (fun ib => lexSorted (items ib)) ibs ->
    ForallOrdPairs (fun ib1 ib2 => leftBefore (items ib1) (items ib2)) ibs ->
    exists out,
      (forall fuel,
          (length out < fuel)%nat ->
          ReadAllItems fuel (MergeItemReaders (map (fun ib => itemBufferReader ib 0) ibs))
          = Some (Returns (out, None))) /\
      Permutation out (concat (map items ibs)) /\
      lexSorted out.
Proof.
  intros ibs Hne Hsorted Hord.
  destruct (buffer_readers_steady ibs) as [Hst [Hpend Hnn]].
  set (readers := map (fun ib => itemBufferReader ib 0) ibs) in *.
  destruct (MergeItemReaders_fold
              (fun l o =>
                 Permutation o (concat l) /\
                 (Forall lexSorted l -> ForallOrdPairs leftBefore l -> lexSorted o)))
    with (n := length readers) (readers := readers) as [Hs [[Hperm Hlex] Hn]]; auto.
  - split; [constructor | intros; constructor].
  - intros s. split; [simpl; now rewrite app_nil_r |].
    intros H _. now inversion H.
  - intros l1 l2 o1 o2 [Hp1 Hl1] [Hp2 Hl2]. split.
    + rewrite tmerge_perm, Hp1, Hp2. now rewrite concat_app.
    + intros Hall Hpairs. apply Forall_app in Hall. destruct Hall as [Ha1 Ha2].
      apply ForallOrdPairs_app_inv in Hpairs. destruct Hpairs as [Hq1 [Hq2 Hcross]].
      apply tmerge_lexSorted; auto.
      intros a b Ha Hb.
      eapply Permutation_in in Ha; [| exact Hp1].
      eapply Permutation_in in Hb; [| exact Hp2].
      apply in_concat in Ha. destruct Ha as [s1 [Hs1 Ha]].
      apply in_concat in Hb. destruct Hb as [s2 [Hs2 Hb]].
      now apply (Hcross s1 s2).
  - exists (pending (MergeItemReaders readers)). split; [| split].
    + intros fuel Hfuel. unfold ReadAllItems.
      rewrite ReadAllItems_loop_steady; auto. rewrite Hn. now apply Hnn.
    + now rewrite Hperm, Hpend.
    + apply Hlex; rewrite Hpend.
      * now apply Forall_map.
      * clear - Hord. induction Hord as [| ib l Hib Hrest IH]; simpl; constructor; auto.
        now apply Forall_map.
Qed.

Lemma MergeItemReaders_sorted_for_ordered_inputs_witness :
  [run [OpAdd 10 [1; 3]]; run [OpAdd 20 [1; 2]]; run [OpAdd 30 [3]]] <> [] /\
  Forall (fun ib => lexSorted (items ib))
         [run [OpAdd 10 [1; 3]]; run [OpAdd 20 [1; 2]]; run [OpAdd 30 [3]]] /\
  ForallOrdPairs (fun ib1 ib2 => leftBefore (items ib1) (items ib2))
                 [run [OpAdd 10 [1; 3]]; run [OpAdd 20 [1; 2]]; run [OpAdd 30 [3]]] /\
  exists out,
    (forall fuel,
        (length out < fuel)%nat ->
        ReadAllItems fuel
          (MergeItemReaders
             (map (fun ib => itemBufferReader ib 0)
                  [run [OpAdd 10 [1; 3]]; run [OpAdd 20 [1; 2]]; run [OpAdd 30 [3]]]))
        = Some (Returns (out, None))) /\
    Permutation out
      (concat (map items [run [OpAdd 10 [1; 3]]; run [OpAdd 20 [1; 2]]; run [OpAdd 30 [3]]])) /\
    lexSorted out.
Proof.
  assert (Hne : [run [OpAdd 10 [1; 3]]; run [OpAdd 20 [1; 2]]; run [OpAdd 30 [3]]] <> [])
    by discriminate.
  assert (Hs : Forall (fun ib => lexSorted (items ib))
                      [run [OpAdd 10 [1; 3]]; run [OpAdd 20 [1; 2]]; run [OpAdd 30 [3]]]).
  { repeat constructor; unfold lexLe; simpl; lia. }
  assert (Ho : ForallOrdPairs (fun ib1 ib2 => leftBefore (items ib1) (items ib2))
                 [run [OpAdd 10 [1; 3]]; run [OpAdd 20 [1; 2]]; run [OpAdd 30 [3]]]).
  { assert (Hlb : forall d1 ts1 d2 ts2,
               d1 <= d2 ->
               leftBefore (items (run [OpAdd d1 ts1])) (items (run [OpAdd d2 ts2]))).
    { intros d1 ts1 d2 ts2 Hd a b Ha Hb _. simpl in Ha, Hb.
      apply in_map_iff in Ha. destruct Ha as [t1 [<- _]].
      apply in_map_iff in Hb. destruct Hb as [t2 [<- _]]. exact Hd. }
    apply FOP_cons; [apply Forall_cons; [| apply Forall_cons; [| apply Forall_nil]] |].
    - apply Hlb. lia.
    - apply Hlb. lia.
    - apply FOP_cons; [apply Forall_cons; [| apply Forall_nil] |].
      + apply Hlb. lia.
      + apply FOP_cons; [apply Forall_nil | apply FOP_nil]. }
  split; [exact Hne |]. split; [exact Hs |]. split; [exact Ho |].
  exact (MergeItemReaders_sorted_for_ordered_inputs _ Hne Hs Ho).
Defined.

End MergePrinciple.

Section MergeShape.
Import index.

Lemma forallb_isNil_readerOf sources :
  forallb isNil (map readerOf sources) = true <-> Forall (fun s => s = None) sources.
Proof.
  induction sources as [| [ib |] sources IH]; simpl.
  - split; [constructor | reflexivity].
  - split; [discriminate | intros H; inversion H; discriminate].
  - rewrite IH. split; [now constructor | intros H; now inversion H].
Qed.

(** X11. Nil readers among the arguments of MergeItemReaders are skipped:
    when all the arguments are nil the result is nil, and when one is not,
    the drain of the result ends with no error and yields the postings of
    the buffers behind the non-nil arguments, each input in its order. *)
Theorem MergeItemReaders_skips_nil_readers :
  forall sources : list (option ItemBuffer),
    (Forall (fun s => s = None) sources ->
     MergeItemReaders (map readerOf sources) = nilReader) /\
    ((exists ib, In (Some ib) sources) ->
     exists out,
       (forall fuel,
           (length out < fuel)%nat ->
           ReadAllItems fuel (MergeItemReaders (map readerOf sources))
           = Some (Returns (out, None))) /\
       Permutation out (concat (map itemsOf sources)) /\
       Forall (fun source => Subseq (itemsOf source) out) sources).
Proof.
  intros sources.
  set (readers := map readerOf sources).
  assert (Hst : Forall steady readers).
  { subst readers. apply Forall_map. apply Forall_forall.
    intros [ib |] _; exact I. }
  assert (Hpend : map pending readers = map itemsOf sources).
  { subst readers. rewrite map_map. apply map_ext. intros [ib |]; reflexivity. }
  destruct (MergeItemReaders_fold
              (fun l o => Permutation o (concat l) /\ Forall (fun s => Subseq s o) l))
    with (n := length readers) (readers := readers) as [Hs [[Hperm Hsub] Hn]]; auto.
  - intros s. split; [simpl; now rewrite app_nil_r |].
    constructor; [apply Subseq_refl | constructor].
  - intros l1 l2 o1 o2 [Hp1 H1] [Hp2 H2]. split.
    + rewrite tmerge_perm, Hp1, Hp2. now rewrite concat_app.
    + apply Forall_app. split.
      * eapply Forall_impl; [| exact H1]. intros s Hsub.
        eapply Subseq_trans; [exact Hsub | apply tmerge_Subseq].
      * eapply Forall_impl; [| exact H2]. intros s Hsub.
        eapply Subseq_trans; [exact Hsub | apply tmerge_Subseq].
  - split.
    + intros Hall. apply forallb_isNil_readerOf in Hall. fold readers in Hall.
      rewrite Hall in Hn.
      destruct (MergeItemReaders readers); try discriminate Hn. reflexivity.
    + intros [ib Hin].
      assert (Hsome : forallb isNil readers = false).
      { destruct (forallb isNil readers) eqn:E; [| reflexivity].
        apply forallb_isNil_readerOf in E. rewrite Forall_forall in E.
        apply E in Hin. discriminate Hin. }
      rewrite Hsome in Hn.
      exists (pending (MergeItemReaders readers)). split; [| split].
      * intros fuel Hfuel. unfold ReadAllItems.
        now rewrite ReadAllItems_loop_steady.
      * now rewrite Hperm, Hpend.
      * rewrite Hpend in Hsub. now rewrite Forall_map in Hsub.
Qed.

Lemma MergeItemReaders_skips_nil_readers_witness :
  (exists ib, In (Some ib) [None; Some (run [OpAdd 10 [1; 3]]); None;
                            Some (run [OpAdd 20 [2]])]) /\
  exists out,
    (forall fuel,
        (length out < fuel)%nat ->
        ReadAllItems fuel
          (MergeItemReaders
             (map readerOf [None; Some (run [OpAdd 10 [1; 3]]); None;
                            Some (run [OpAdd 20 [2]])]))
        = Some (Returns (out, None))) /\
    Permutation out
      (concat (map itemsOf [None; Some (run [OpAdd 10 [1; 3]]); None;
                            Some (run [OpAdd 20 [2]])])) /\
    Forall (fun source => Subseq (itemsOf source) out)
           [None; Some (run [OpAdd 10 [1; 3]]); None; Some (run [OpAdd 20 [2]])].
Proof.
  assert (H : exists ib, In (Some ib) [None; Some (run [OpAdd 10 [1; 3]]); None;
                                       Some (run [OpAdd 20 [2]])])
    by (exists (run [OpAdd 10 [1; 3]]); simpl; auto).
  split; [exact H |].
  exact (proj2 (MergeItemReaders_skips_nil_readers _) H).
Defined.

Lemma mergeTwo_depth r0 r1 :
  (depth (mergeTwo r0 r1) <= S (Nat.max (depth r0) (depth r1)))%nat.
Proof.
  unfold mergeTwo. destruct (isNil r0); [lia |]. destruct (isNil r1); [lia |].
  simpl. lia.
Qed.

Lemma MergeItemReaders_depth n :
  forall readers,
    (length readers <= n)%nat ->
    Forall (fun r => depth r = 0%nat) readers ->
    forall k, (length readers <= 2 ^ k)%nat ->
              (depth (MergeItemReaders readers) <= k)%nat.
Proof.
  induction n as [| n IH]; intros readers Hlen Hleaf k Hk.
  - destruct readers; [| simpl in Hlen; lia]. simp MergeItemReaders. simpl. lia.
  - destruct readers as [| r0 [| r1 [| r2 rest]]].
    + simp MergeItemReaders. simpl. lia.
    + simp MergeItemReaders. inversion Hleaf; subst. lia.
    + simp MergeItemReaders.
      inversion Hleaf as [| ? ? D0 Hleaf']; subst.
      inversion Hleaf' as [| ? ? D1 _]; subst.
      pose proof (mergeTwo_depth r0 r1) as Hd. rewrite D0, D1 in Hd. simpl in Hd.
      destruct k as [| k]; [simpl in Hk; lia | lia].
    + simp MergeItemReaders.
      set (readers := r0 :: r1 :: r2 :: rest) in *.
      set (mid := Nat.div (length readers) 2).
      assert (Hlen3 : (3 <= length readers)%nat) by (subst readers; simpl; lia).
      assert (Hmid : (1 <= mid < length readers)%nat).
      { subst mid. split.
        - apply Nat.div_le_lower_bound; lia.
        - apply Nat.div_lt; lia. }
      assert (Hsplit : readers = firstn mid readers ++ skipn mid readers)
        by (symmetry; apply firstn_skipn).
      assert (Hleaf2 := Hleaf). rewrite Hsplit in Hleaf2. apply Forall_app in Hleaf2.
      destruct Hleaf2 as [HleafL HleafR].
      destruct k as [| k]; [simpl in Hk; lia |].
      rewrite Nat.pow_succ_r' in Hk.
      assert (Hhalf : (2 * mid <= length readers < 2 * mid + 2)%nat).
      { subst mid. pose proof (Nat.div_mod_eq (length readers) 2) as Hdm.
        pose proof (Nat.mod_upper_bound (length readers) 2). lia. }
      assert (HL : (depth (MergeItemReaders (firstn mid readers)) <= k)%nat).
      { apply IH; auto; rewrite length_firstn; lia. }
      assert (HR : (depth (MergeItemReaders (skipn mid readers)) <= k)%nat).
      { apply IH; auto; rewrite length_skipn; lia. }
      cbv zeta. fold mid. simp MergeItemReaders.
      pose proof (mergeTwo_depth (MergeItemReaders (firstn mid readers))
                                 (MergeItemReaders (skipn mid readers))).
      lia.
Qed.

(** X12. The merge tree is balanced: over at most 2^k sources that are not
    merge nodes themselves, MergeItemReaders builds a tree in which no
    source is more than k merge nodes away from the root. *)
Theorem MergeItemReaders_tree_depth :
  forall readers k,
    Forall (fun r => depth r = 0%nat) readers ->
    (length readers <= 2 ^ k)%nat ->
    (depth (MergeItemReaders readers) <= k)%nat.
Proof.
  intros readers k Hleaf Hk.
  now apply (MergeItemReaders_depth (length readers)).
Qed.

Lemma MergeItemReaders_tree_depth_witness :
  Forall (fun r => depth r = 0%nat)
         (map (fun ib => itemBufferReader ib 0) (repeat emptyBuffer 7)) /\
  (length (map (fun ib => itemBufferReader ib 0) (repeat emptyBuffer 7)) <= 2 ^ 3)%nat /\
  (depth (MergeItemReaders (map (fun ib => itemBufferReader ib 0) (repeat emptyBuffer 7)))
   <= 3)%nat.
Proof.
  assert (Hleaf : Forall (fun r => depth r = 0%nat)
                         (map (fun ib => itemBufferReader ib 0) (repeat emptyBuffer 7)))
    by (repeat constructor).
  assert (Hk : (length (map (fun ib => itemBufferReader ib 0) (repeat emptyBuffer 7))
                <= 2 ^ 3)%nat) by (simpl; lia).
  split; [exact Hleaf |]. split; [exact Hk |].
  exact (MergeItemReaders_tree_depth _ 3%nat Hleaf Hk).
Defined.

End MergeShape.

(** * More facts about package chromaprint *)

Section CodecMoreFacts.
Import chromaprint.

(** X13. Validation and decoding of text agree: for every string,
    ValidateFingerprintString returns true exactly when
    ParseFingerprintString returns a fingerprint, false exactly when it
    returns an error, and panics exactly when it panics.  The base64
    decoder and the 3-bit helper are arbitrary, the 5-bit helper gives
    codes between 0 and 31. *)
Theorem ValidateFingerprintString_iff_ParseFingerprintString :
  forall unpackInt3Array unpackInt5Array RawURLEncoding_DecodeString,
    fiveBitCodes unpackInt5Array ->
    forall str,
      (ValidateFingerprintString unpackInt3Array unpackInt5Array
                                 RawURLEncoding_DecodeString str = Returns true <->
       exists fp,
         ParseFingerprintString unpackInt3Array unpackInt5Array
                                RawURLEncoding_DecodeString str
         = Returns (Some fp, None)) /\
      (ValidateFingerprintString unpackInt3Array unpackInt5Array
                                 RawURLEncoding_DecodeString str = Returns false <->
       exists e,
         ParseFingerprintString unpackInt3Array unpackInt5Array
                                RawURLEncoding_DecodeString str
         = Returns (None, Some e)) /\
      (ValidateFingerprintString unpackInt3Array unpackInt5Array
                                 RawURLEncoding_DecodeString str = Panics <->
       ParseFingerprintString unpackInt3Array unpackInt5Array
                              RawURLEncoding_DecodeString str = Panics).
Proof.
  intros u3 u5 dec H5 str.
  unfold ValidateFingerprintString, ParseFingerprintString.
  destruct (DecodeFingerprintString dec str) as [data [e0 |]].
  - repeat split; try discriminate.
    + intros [x Hx]; discriminate Hx.
    + intros _. eexists. reflexivity.
  - unfold ValidateFingerprint, ParseFingerprint.
    destruct (unpackFingerprint_modes u3 u5 H5 data {| Version := 0; Hashes := [] |})
      as [[Hv Hp] | [[e [_ [Hv Hp]]] | [fp [Hv Hp]]]];
      rewrite Hv, Hp; cbn [bind].
    + repeat split; try discriminate; intros [x Hx]; discriminate Hx.
    + repeat split; try discriminate.
      * intros [x Hx]; discriminate Hx.
      * intros _. now exists e.
    + repeat split; try discriminate.
      * intros _. now exists fp.
      * intros [x Hx]; discriminate Hx.
Qed.

Lemma ValidateFingerprintString_iff_ParseFingerprintString_witness :
  fiveBitCodes unpackInt5Array /\
  (ValidateFingerprintString unpackInt3Array unpackInt5Array
                             RawURLEncoding_DecodeString "AQAAAiAA" = Returns true <->
   exists fp,
     ParseFingerprintString unpackInt3Array unpackInt5Array
                            RawURLEncoding_DecodeString "AQAAAiAA"
     = Returns (Some fp, None)).
Proof.
  split; [exact unpackInt5Array_codes |].
  exact (proj1 (ValidateFingerprintString_iff_ParseFingerprintString
                  unpackInt3Array unpackInt5Array RawURLEncoding_DecodeString
                  unpackInt5Array_codes "AQAAAiAA")).
Defined.

(** ** The header *)

Lemma byteZ_range b : 0 <= byteZ b < 256.
Proof.
  unfold byteZ. pose proof (Byte.to_N_bounded b). lia.
Qed.

Lemma lor_shiftl_add lo hi k :
  0 <= k -> 0 <= lo < 2 ^ k -> Z.lor lo (Z.shiftl hi k) = lo + hi * 2 ^ k.
Proof.
  intros Hk Hlo.
  assert (Hland : Z.land lo (Z.shiftl hi k) = 0).
  { apply Z.bits_inj'. intros n Hn. rewrite Z.land_spec, Z.bits_0.
    destruct (Z.lt_ge_cases n k) as [Hlt | Hge].
    - rewrite Z.shiftl_spec_low by exact Hlt. apply andb_false_r.
    - rewrite <- (Z.mod_small lo (2 ^ k)) by exact Hlo.
      rewrite Z.mod_pow2_bits_high by lia. reflexivity. }
  rewrite <- Z.lxor_lor, <- Z.add_nocarry_lxor by exact Hland.
  now rewrite Z.shiftl_mul_pow2.
Qed.

Lemma BigEndian_Uint32_value b0 b1 b2 b3 rest :
  BigEndian_Uint32 (b0 :: b1 :: b2 :: b3 :: rest)
  = Returns (byteZ b3 + byteZ b2 * 256 + byteZ b1 * 65536 + byteZ b0 * 16777216).
Proof.
  unfold BigEndian_Uint32.
  pose proof (byteZ_range b0). pose proof (byteZ_range b1).
  pose proof (byteZ_range b2). pose proof (byteZ_range b3).
  rewrite (lor_shiftl_add (byteZ b3) (byteZ b2) 8) by lia.
  rewrite (lor_shiftl_add _ (byteZ b1) 16) by lia.
  rewrite (lor_shiftl_add _ (byteZ b0) 24) by lia.
  reflexivity.
Qed.

Lemma log2_u32 a : 0 <= a -> (a < 2 ^ 32 <-> Z.log2 a < 32).
Proof.
  intros Ha. destruct (Z.eq_dec a 0) as [-> | Hne].
  - simpl. split; intros; lia.
  - apply Z.log2_lt_pow2. lia.
Qed.

Lemma lor_u32 a b : is_u32 a -> is_u32 b -> is_u32 (Z.lor a b).
Proof.
  unfold is_u32. intros [Ha0 Ha] [Hb0 Hb].
  assert (H0 : 0 <= Z.lor a b) by (apply Z.lor_nonneg; auto).
  split; [exact H0 |]. apply log2_u32; [exact H0 |].
  rewrite Z.log2_lor by assumption.
  apply log2_u32 in Ha; [| exact Ha0]. apply log2_u32 in Hb; [| exact Hb0]. lia.
Qed.

Lemma lxor_u32 a b : is_u32 a -> is_u32 b -> is_u32 (Z.lxor a b).
Proof.
  unfold is_u32. intros [Ha0 Ha] [Hb0 Hb].
  assert (H0 : 0 <= Z.lxor a b) by (apply Z.lxor_nonneg; split; auto).
  split; [exact H0 |]. apply log2_u32; [exact H0 |].
  pose proof (Z.log2_lxor a b Ha0 Hb0).
  apply log2_u32 in Ha; [| exact Ha0]. apply log2_u32 in Hb; [| exact Hb0]. lia.
Qed.

Lemma shl1_u32 count : is_u32 (shl1_uint32 count).
Proof.
  unfold is_u32, shl1_uint32. destruct (count <? 32) eqn:E; [| lia].
  apply Z.ltb_lt in E. destruct (Z.lt_ge_cases count 0) as [Hneg | Hpos].
  - rewrite Z.shiftl_div_pow2 by lia.
    rewrite Z.div_small; [lia |].
    split; [lia |]. apply Z.pow_gt_1; lia.
  - rewrite Z.shiftl_1_l. split; [apply Z.pow_nonneg; lia |].
    apply Z.pow_lt_mono_r; lia.
Qed.

Lemma store_Forall (P : Z -> Prop) hashes hi v :
  Forall P hashes -> P v -> Forall P (store hashes hi v).
Proof.
  revert hi. induction hashes as [| h t IH]; intros hi Hall Hv; simpl.
  - now destruct hi.
  - inversion Hall; subst. destruct hi; constructor; auto.
Qed.

Lemma buildHashes_shape :
  forall bits hashes hi lastBit hashes',
    buildHashes bits hashes hi lastBit = Returns hashes' ->
    length hashes' = length hashes /\ (Forall is_u32 hashes -> Forall is_u32 hashes').
Proof.
  induction bits as [| bit rest IH]; intros hashes hi lastBit hashes' H; simpl in H.
  - inversion H; subst. auto.
  - destruct (bit =? 0).
    + destruct (0 <? hi)%nat.
      * destruct (nth_error hashes hi) as [h |] eqn:Eh; [| discriminate H].
        destruct (nth_error hashes (hi - 1)) as [prev |] eqn:Ep; [| discriminate H].
        cbn [bind] in H. apply IH in H. destruct H as [Hl Hr].
        rewrite store_length in Hl. split; [exact Hl |].
        intros Hall. apply Hr. apply store_Forall; [exact Hall |].
        rewrite Forall_forall in Hall.
        apply lxor_u32; apply Hall; eapply nth_error_In; eauto.
      * cbn [bind] in H. now apply IH in H.
    + destruct (nth_error hashes hi) as [h |] eqn:Eh; [| discriminate H].
      apply IH in H. destruct H as [Hl Hr].
      rewrite store_length in Hl. split; [exact Hl |].
      intros Hall. apply Hr. apply store_Forall; [exact Hall |].
      apply lor_u32; [| apply shl1_u32].
      rewrite Forall_forall in Hall. apply Hall. eapply nth_error_In; eauto.
Qed.

(** X14. What a successful ParseFingerprint returns: the data has at least
    four bytes, Version is the first byte, the number of hashes is the
    number the next three bytes hold in big-endian order, and every hash
    fits in 32 bits; whatever the two helpers do. *)
Theorem ParseFingerprint_follows_header :
  forall unpackInt3Array unpackInt5Array data fp,
    ParseFingerprint unpackInt3Array unpackInt5Array data = Returns (Some fp, None) ->
    exists b0 b1 b2 b3 rest,
      data = b0 :: b1 :: b2 :: b3 :: rest /\
      Version fp = byteZ b0 /\
      Z.of_nat (length (Hashes fp)) = byteZ b1 * 65536 + byteZ b2 * 256 + byteZ b3 /\
      Hashes fp <> [] /\
      Forall (fun h => 0 <= h < 2 ^ 32) (Hashes fp).
Proof.
  intros u3 u5 data fp H.
  unfold ParseFingerprint, unpackFingerprint in H.
  destruct (length data <? 4)%nat eqn:Elen; [discriminate H |].
  destruct data as [| b0 [| b1 [| b2 [| b3 rest]]]]; try discriminate Elen.
  exists b0, b1, b2, b3, rest. split; [reflexivity |].
  rewrite BigEndian_Uint32_value in H. cbn [bind] in H.
  pose proof (byteZ_range b0). pose proof (byteZ_range b1).
  pose proof (byteZ_range b2). pose proof (byteZ_range b3).
  set (header := byteZ b3 + byteZ b2 * 256 + byteZ b1 * 65536 + byteZ b0 * 16777216) in H.
  assert (Hver : Z.land (Z.shiftr header 24) 255 = byteZ b0).
  { change 255 with (Z.ones 8). rewrite Z.land_ones, Z.shiftr_div_pow2 by lia.
    subst header. change (2 ^ 24) with 16777216. change (2 ^ 8) with 256.
    Z.to_euclidean_division_equations. lia. }
  assert (Htot : Z.land header 16777215
                 = byteZ b1 * 65536 + byteZ b2 * 256 + byteZ b3).
  { change 16777215 with (Z.ones 24). rewrite Z.land_ones by lia.
    subst header. change (2 ^ 24) with 16777216.
    Z.to_euclidean_division_equations. lia. }
  rewrite Hver, Htot in H. clearbody header.
  set (totalValues := byteZ b1 * 65536 + byteZ b2 * 256 + byteZ b3) in *.
  destruct (totalValues =? 0) eqn:Etv; [discriminate H |].
  apply Z.eqb_neq in Etv.
  destruct (slice_from _ 4) as [codes |]; [| discriminate H]. cbn [bind] in H.
  destruct (scanBits _ _ _ _ _) as [[numValues numExc] cut].
  destruct (negb (numValues =? totalValues)); [discriminate H |].
  assert (Hbuild :
            forall bits hashes,
              buildHashes bits (repeat 0 (Z.to_nat totalValues)) 0 0 = Returns hashes ->
              Z.of_nat (length hashes) = totalValues /\ hashes <> [] /\
              Forall (fun h => 0 <= h < 2 ^ 32) hashes).
  { intros bits hashes Hb. apply buildHashes_shape in Hb. destruct Hb as [Hl Hr].
    rewrite repeat_length in Hl.
    assert (Htv : 0 <= totalValues) by (subst totalValues; lia).
    split; [lia |]. split.
    - intros ->. simpl in Hl. lia.
    - apply Hr. apply Forall_forall. intros h Hh. apply repeat_spec in Hh.
      subst h. unfold is_u32. lia. }
  destruct (0 <? numExc).
  - destruct (slice_from _ _) as [exc |]; [| discriminate H]. cbn [bind] in H.
    destruct (negb _); cbn [bind] in H; [discriminate H |].
    destruct (addExceptional _ _ _) as [bits' |]; [| discriminate H]. cbn [bind] in H.
    destruct (buildHashes _ _ _ _) as [hashes |] eqn:Eb; [| discriminate H].
    cbn [bind] in H. inversion H; subst. simpl. apply Hbuild in Eb. tauto.
  - cbn [bind] in H.
    destruct (buildHashes _ _ _ _) as [hashes |] eqn:Eb; [| discriminate H].
    cbn [bind] in H. inversion H; subst. simpl. apply Hbuild in Eb. tauto.
Qed.

Lemma ParseFingerprint_follows_header_witness :
  ParseFingerprint unpackInt3Array unpackInt5Array [x01; x00; x00; x02; x20; x00]
  = Returns (Some {| Version := 1; Hashes := [1; 1] |}, None) /\
  exists b0 b1 b2 b3 rest,
    [x01; x00; x00; x02; x20; x00] = b0 :: b1 :: b2 :: b3 :: rest /\
    Version {| Version := 1; Hashes := [1; 1] |} = byteZ b0 /\
    Z.of_nat (length (Hashes {| Version := 1; Hashes := [1; 1] |}))
    = byteZ b1 * 65536 + byteZ b2 * 256 + byteZ b3 /\
    Hashes {| Version := 1; Hashes := [1; 1] |} <> [] /\
    Forall (fun h => 0 <= h < 2 ^ 32) (Hashes {| Version := 1; Hashes := [1; 1] |}).
Proof.
  assert (H : ParseFingerprint unpackInt3Array unpackInt5Array
                               [x01; x00; x00; x02; x20; x00]
              = Returns (Some {| Version := 1; Hashes := [1; 1] |}, None))
    by reflexivity.
  split; [exact H |].
  exact (ParseFingerprint_follows_header _ _ _ _ H).
Defined.

End CodecMoreFacts.

Section DeltaDecoding.
Import chromaprint.








End DeltaDecoding.

Section TruncatedCodes.
Import chromaprint.

Lemma zeros_app l1 l2 : zeros (l1 ++ l2) = (zeros l1 + zeros l2)%nat.
Proof. unfold zeros. now rewrite filter_app, length_app. Qed.

Lemma scanBits_none totalValues :
  forall bits bi numValues numExc numValues' numExc',
    numValues < totalValues ->
    scanBits totalValues bits bi numValues numExc = (numValues', numExc', None) ->
    numValues + Z.of_nat (zeros bits) < totalValues.
Proof.
  induction bits as [| bit rest IH]; intros bi nv ne nv' ne' Hlt H; simpl in H.
  - unfold zeros. simpl. lia.
  - rewrite zeros_cons. destruct (bit =? 0).
    + destruct (nv + 1 =? totalValues) eqn:Et; [discriminate H |].
      apply Z.eqb_neq in Et. apply IH in H; lia.
    + destruct (bit =? 7); apply IH in H; lia.
Qed.

(** X16. A truncated stream of normal codes: when the header announces a
    non-zero number of values, ParseFingerprint fails with "not enough
    data to decode normal bits" exactly when the 3-bit codes of the bytes
    after the header hold fewer zero codes than values announced. *)
Theorem ParseFingerprint_needs_enough_zero_codes :
  forall unpackInt3Array unpackInt5Array b0 b1 b2 b3 rest,
    byteZ b1 * 65536 + byteZ b2 * 256 + byteZ b3 <> 0 ->
    (ParseFingerprint unpackInt3Array unpackInt5Array (b0 :: b1 :: b2 :: b3 :: rest)
     = Returns (None, Some (Wrap ErrInvalidFingerprint
                                 "not enough data to decode normal bits")) <->
     Z.of_nat (zeros (unpackInt3Array rest))
     < byteZ b1 * 65536 + byteZ b2 * 256 + byteZ b3).
Proof.
  intros u3 u5 b0 b1 b2 b3 rest Htv.
  unfold ParseFingerprint, unpackFingerprint.
  change (length (b0 :: b1 :: b2 :: b3 :: rest) <? 4)%nat with false. cbv iota.
  rewrite BigEndian_Uint32_value. cbn [bind].
  pose proof (byteZ_range b0). pose proof (byteZ_range b1).
  pose proof (byteZ_range b2). pose proof (byteZ_range b3).
  set (header := byteZ b3 + byteZ b2 * 256 + byteZ b1 * 65536 + byteZ b0 * 16777216).
  assert (Htot : Z.land header 16777215
                 = byteZ b1 * 65536 + byteZ b2 * 256 + byteZ b3).
  { change 16777215 with (Z.ones 24). rewrite Z.land_ones by lia.
    subst header. change (2 ^ 24) with 16777216.
    Z.to_euclidean_division_equations. lia. }
  rewrite Htot. clearbody header.
  set (totalValues := byteZ b1 * 65536 + byteZ b2 * 256 + byteZ b3) in *.
  assert (Hpos : 0 < totalValues) by (subst totalValues; lia).
  destruct (totalValues =? 0) eqn:Etv; [apply Z.eqb_eq in Etv; lia |].
  change (slice_from (b0 :: b1 :: b2 :: b3 :: rest) 4) with (Returns rest).
  cbn [bind].
  destruct (scanBits totalValues (u3 rest) 0 0 0) as [[numValues numExc] cut] eqn:Escan.
  destruct cut as [k |].
  - apply scanBits_cut in Escan; [| lia].
    destruct Escan as [n [-> [Hlast [Hzeros [Hsevens ->]]]]].
    rewrite Z.eqb_refl. cbn [negb].
    assert (Hall : Z.of_nat (zeros (u3 rest)) >= totalValues).
    { rewrite <- (firstn_skipn n (u3 rest)), zeros_app. lia. }
    split; [| lia]. intros Hr. exfalso.
    destruct (0 <? numExc).
    + destruct (slice_from _ _) as [exc |]; [| discriminate Hr]. cbn [bind] in Hr.
      destruct (negb _); cbn [bind] in Hr; [discriminate Hr |].
      destruct (addExceptional _ _ _) as [bits' |]; [| discriminate Hr].
      cbn [bind] in Hr.
      destruct (buildHashes _ _ _ _); discriminate Hr.
    + cbn [bind] in Hr. destruct (buildHashes _ _ _ _); discriminate Hr.
  - pose proof (scanBits_none _ _ _ _ _ _ _ Hpos Escan) as Hfew.
    pose proof (scanBits_short _ _ _ _ _ _ _ Hpos Escan) as Hshort.
    destruct (numValues =? totalValues) eqn:E; [apply Z.eqb_eq in E; lia |].
    cbn [negb bind]. split; [intros _; lia | reflexivity].
Qed.

Lemma ParseFingerprint_needs_enough_zero_codes_witness :
  byteZ x00 * 65536 + byteZ x00 * 256 + byteZ x05 <> 0 /\
  (ParseFingerprint unpackInt3Array unpackInt5Array [x01; x00; x00; x05; x00]
   = Returns (None, Some (Wrap ErrInvalidFingerprint
                               "not enough data to decode normal bits")) <->
   Z.of_nat (zeros (unpackInt3Array [x00]))
   < byteZ x00 * 65536 + byteZ x00 * 256 + byteZ x05).
Proof.
  assert (H : byteZ x00 * 65536 + byteZ x00 * 256 + byteZ x05 <> 0) by discriminate.
  split; [exact H |].
  exact (ParseFingerprint_needs_enough_zero_codes
           unpackInt3Array unpackInt5Array x01 x00 x00 x05 [x00] H).
Defined.

End TruncatedCodes.

(** * Facts about package handlers *)

Section HandlerFacts.
Import handlers.

Lemma parseResponseFormat_requested values allowed :
  parseResponseFormat values allowed
  = match requested values with
    | Some f =>
        if Z.land f allowed =? 0
        then (UnknownFormat,
              Some (errorString ("unknown format " ++ Get values "format")))
        else (f, None)
    | None =>
        (UnknownFormat, Some (errorString ("unknown format " ++ Get values "format")))
    end.
Proof.
  unfold parseResponseFormat, requested.
  destruct (Get values "format" =? "")%string eqn:E0.
  { apply String.eqb_eq in E0. rewrite E0. cbn [orb].
    destruct (Z.land JsonFormat allowed =? 0); reflexivity. }
  destruct (Get values "format" =? "json")%string eqn:E1.
  { apply String.eqb_eq in E1. rewrite E1. cbn [orb].
    destruct (Z.land JsonFormat allowed =? 0); reflexivity. }
  cbn [orb andb].
  destruct (Get values "format" =? "jsonp")%string eqn:E2.
  { apply String.eqb_eq in E2. rewrite E2.
    destruct (Z.land JsonpFormat allowed =? 0); reflexivity. }
  cbn [andb].
  destruct (Get values "format" =? "xml")%string eqn:E3; [| reflexivity].
  destruct (Z.land XmlFormat allowed =? 0); reflexivity.
Qed.

(** X17. parseResponseFormat accepts a request exactly when the format it
    asks for (json when the parameter is absent or empty) has its bit in
    the allowed mask, and then returns that format; in every other case it
    returns UnknownFormat with the error naming the value of the
    parameter. *)
Theorem parseResponseFormat_allowed_only :
  forall values allowed,
    (forall f,
        parseResponseFormat values allowed = (f, None) <->
        requested values = Some f /\ Z.land f allowed <> 0) /\
    ((forall f, requested values = Some f -> Z.land f allowed = 0) ->
     parseResponseFormat values allowed
     = (UnknownFormat,
        Some (errorString ("unknown format " ++ Get values "format")))).
Proof.
  intros values allowed. rewrite parseResponseFormat_requested.
  destruct (requested values) as [g |].
  - destruct (Z.land g allowed =? 0) eqn:E;
      [apply Z.eqb_eq in E | apply Z.eqb_neq in E].
    + split; [| reflexivity].
      intros f. split; [discriminate |].
      intros [H1 H2]. inversion H1; subst. contradiction.
    + split.
      * intros f. split.
        -- intros H. inversion H; subst. auto.
        -- intros [H1 _]. inversion H1; subst. reflexivity.
      * intros H. specialize (H g eq_refl). contradiction.
  - split; [| reflexivity].
    intros f. split; [discriminate | intros [H _]; discriminate H].
Qed.

Lemma parseResponseFormat_allowed_only_witness :
  requested (fun key => if (key =? "format")%string then ["xml"%string] else [])
  = Some XmlFormat /\
  Z.land XmlFormat (Z.lor JsonFormat XmlFormat) <> 0 /\
  parseResponseFormat
    (fun key => if (key =? "format")%string then ["xml"%string] else [])
    (Z.lor JsonFormat XmlFormat)
  = (XmlFormat, None).
Proof.
  assert (H1 : requested (fun key => if (key =? "format")%string
                                     then ["xml"%string] else [])
               = Some XmlFormat) by reflexivity.
  assert (H2 : Z.land XmlFormat (Z.lor JsonFormat XmlFormat) <> 0) by discriminate.
  split; [exact H1 |]. split; [exact H2 |].
  exact (proj2 (proj1 (parseResponseFormat_allowed_only _ _) XmlFormat) (conj H1 H2)).
Defined.

(** X18. WriteResponse, as the calls it makes on the response writer:
    WriteHeader is called exactly once, with the status given; the only
    header set is Content-Type, at most once and before WriteHeader, and
    only for the JSON and XML formats; the body is written after
    WriteHeader and ends with the marshalled data, preceded by the XML
    header for XML.  For any other format, in particular JSONP, nothing
    but the status and an empty body is written. *)
Theorem WriteResponse_calls :
  forall (response : Type) json_Marshal xml_Marshal xml_Header status (r : response) format,
    exists headers body,
      WriteResponse response json_Marshal xml_Marshal xml_Header status r format
      = headers ++ [WriteHeader status] ++ body /\
      (headers = [] \/ exists v, headers = [HeaderSet "Content-Type" v]) /\
      (headers <> [] <-> format = JsonFormat \/ format = XmlFormat) /\
      (format = JsonFormat -> body = [Write (fst (json_Marshal r))]) /\
      (format = XmlFormat ->
       body = [Write (list_byte_of_string xml_Header); Write (fst (xml_Marshal r))]) /\
      (format <> JsonFormat -> format <> XmlFormat -> body = [Write []]).
Proof.
  intros response jm xm xh status r format.
  unfold WriteResponse, MarshalResponse.
  destruct (format =? JsonFormat) eqn:Ej; [apply Z.eqb_eq in Ej | apply Z.eqb_neq in Ej].
  - subst format. change (JsonFormat =? XmlFormat) with false.
    destruct (jm r) as [data err]. simpl fst.
    exists [HeaderSet "Content-Type" "application/json; charset=utf-8"], [Write data].
    split; [reflexivity |]. split; [right; eexists; reflexivity |].
    split; [split; [auto | discriminate] |].
    split; [reflexivity |]. split; [discriminate |]. intros H; now elim H.
  - destruct (format =? XmlFormat) eqn:Ex; [apply Z.eqb_eq in Ex | apply Z.eqb_neq in Ex].
    + subst format. destruct (xm r) as [data err]. simpl fst.
      exists [HeaderSet "Content-Type" "application/xml; charset=utf-8"],
             [Write (list_byte_of_string xh); Write data].
      split; [reflexivity |]. split; [right; eexists; reflexivity |].
      split; [split; [auto | discriminate] |].
      split; [intros H; now elim Ej |]. split; [reflexivity |].
      intros _ H. now elim H.
    + exists [], [Write []].
      split; [reflexivity |]. split; [now left |].
      split; [split; [intros H; now elim H | intros [H | H]; contradiction] |].
      split; [intros H; contradiction |]. split; [intros H; contradiction |].
      reflexivity.
Qed.

End HandlerFacts.
